(** * quebap.model.reader: the atomic batcher and the dot-product scorer

    A shallow embedding of [quebap/model/reader.py].  Python integers are
    [Z], Python lists are [list], Python sets of strings are [gset string],
    the float constants of the target matrix are primitive floats.  Code
    that can raise returns a [result]; code that also advances the batcher's
    private random source runs in the state-and-exception monad [M] over a
    [Store] holding the batcher object and the [data] argument. *)

From Stdlib Require Import ZArith PrimFloat.
From stdpp Require Import gmap strings list.

Open Scope Z_scope.

(** ** Python runtime: exceptions, subscripts, slices, integer division *)

Inductive exception : Type :=
  | KeyError (key : string)
  | IndexError
  | ValueError
  | ZeroDivisionError.

Inductive result (A : Type) : Type :=
  | Ok (a : A)
  | Raise (e : exception).
Arguments Ok {A} a.
Arguments Raise {A} e.

#[global] Instance result_ret : MRet result := fun _ a => Ok a.
#[global] Instance result_bind : MBind result := fun _ _ f r =>
  match r with
  | Ok a => f a
  | Raise e => Raise e
  end.

(** [l[0]]: the first element, [IndexError] on an empty list. *)
Definition getitem0 {A} (l : list A) : result A :=
  match l with
  | [] => Raise IndexError
  | x :: _ => Ok x
  end.

(** [l[lo:hi]] with Python's treatment of negative and out-of-range bounds. *)
Definition slice_bound (n i : Z) : Z :=
  if i <? 0 then Z.max (i + n) 0 else Z.min i n.

Definition slice {A} (l : list A) (lo hi : Z) : list A :=
  let n := Z.of_nat (length l) in
  let lo' := slice_bound n lo in
  let hi' := slice_bound n hi in
  take (Z.to_nat (hi' - lo')) (drop (Z.to_nat lo') l).

(** [a // b]: floor division, [ZeroDivisionError] when [b] is zero. *)
Definition floordiv (a b : Z) : result Z :=
  if b =? 0 then Raise ZeroDivisionError else Ok (a `div` b).

(** [range(lo, hi)]. *)
Definition range (lo hi : Z) : list Z := seqZ lo (hi - lo).

Definition len {A} (l : list A) : Z := Z.of_nat (length l).

(** ** The random source

    [random.Random] belongs to Python's standard library.  Its generator
    core is kept abstract: a state type, the constructor [Random(seed)] and
    the primitive [_randbelow(n)], which for a positive [n] returns an
    integer below [n] and the advanced state.  [randrange] and [randint] are
    the library's wrappers around it, with the [ValueError] for an empty
    range. *)

Class RandomSource : Type := {
  random_state : Type;
  Random : Z -> random_state;
  randbelow : Z -> random_state -> Z * random_state;
  randbelow_range : forall n s, 0 < n -> 0 <= (randbelow n s).1 < n
}.

Section RandomLibrary.
Context {RS : RandomSource}.

Definition randrange (start stop : Z) (s : random_state)
  : result Z * random_state :=
  let width := stop - start in
  if 0 <? width
  then let '(r, s') := randbelow width s in (Ok (start + r), s')
  else (Raise ValueError, s).

Definition randint (a b : Z) (s : random_state) : result Z * random_state :=
  randrange a (b + 1) s.
End RandomLibrary.

(** ** FrozenIdentifier *)

(** Modelled from the spec: [quebap.projects.modelF.structs.FrozenIdentifier]
    is not among the sources.  The spec describes an immutable bijection
    between a finite set of symbols and the ids [0..n-1], built once from a
    collection, whose lookup of a symbol absent at construction time fails.
    Here the identifier is the list of its symbols, a symbol's id is its
    position, and the construction enumerates the input set in the set's
    canonical order. *)
Record FrozenIdentifier : Type := { id2key : list string }.

(** Modelled from the spec: [FrozenIdentifier(symbols)], the construction
    from a set of symbols; every symbol gets one id in [[0, count)]. *)
Definition FrozenIdentifier_build (symbols : gset string) : FrozenIdentifier :=
  {| id2key := elements symbols |}.

(** Modelled from the spec: [lex[key]], the id of a symbol; it fails for a
    symbol that was not present at construction time. *)
Definition FrozenIdentifier_getitem (lex : FrozenIdentifier) (key : string)
  : result Z :=
  match list_find (eq key) (id2key lex) with
  | Some (i, _) => Ok (Z.of_nat i)
  | None => Raise (KeyError key)
  end.

(** Modelled from the spec: [len(lex)], the number of distinct symbols. *)
Definition FrozenIdentifier_len (lex : FrozenIdentifier) : Z :=
  len (id2key lex).

(** ** The quebap dataset, as far as the batcher reads it *)

Record Candidate : Type := { text : string }.
Record Question : Type := { question : string; answers : list Candidate }.
Record Instance : Type := { questions : list Question }.
Record Globals : Type := { candidates : list Candidate }.
Record Dataset : Type := { globals : Globals; instances : list Instance }.

(** [inst['questions'][0]['question']] *)
Definition question_text (inst : Instance) : result string :=
  q ← getitem0 (questions inst); mret (question q).

(** [inst['questions'][0]['answers'][0]['text']] *)
Definition answer_text (inst : Instance) : result string :=
  q ← getitem0 (questions inst); a ← getitem0 (answers q); mret (text a).

(** ** Placeholders and batches *)

Inductive dtype : Type := int32 | float32.

(** [tf.placeholder(dtype, shape)]: every dimension of the shapes used by the
    batcher is unknown, so a shape is its list of optional sizes. *)
Record placeholder : Type := { ph_dtype : dtype; ph_shape : list (option Z) }.

(** A feed dict has exactly the batcher's three placeholders as keys. *)
Record Batch : Type := {
  feed_question_ids : list Z;
  feed_candidate_ids : list (Z * Z);
  feed_target_values : list (float * float)
}.

Section AtomicBatcher.
Context {RS : RandomSource}.

Record AtomicBatcher : Type := {
  reference_data : Dataset;
  question_lexicon : FrozenIdentifier;
  candidate_lexicon : FrozenIdentifier;
  question_ids : placeholder;
  candidate_ids : placeholder;
  target_values : placeholder;
  random : random_state;
  num_candidates : Z;
  num_questions : Z
}.

(** [AtomicBatcher.__init__] *)
Definition AtomicBatcher_init (reference_data : Dataset) : result AtomicBatcher :=
  let global_candidates := candidates (globals reference_data) in
  let all_candidates : gset string := list_to_set (text <$> global_candidates) in
  let instances := instances reference_data in
  texts ← mapM question_text instances;
  let all_questions : gset string := list_to_set texts in
  let question_lexicon := FrozenIdentifier_build all_questions in
  let candidate_lexicon := FrozenIdentifier_build all_candidates in
  mret {| reference_data := reference_data;
          question_lexicon := question_lexicon;
          candidate_lexicon := candidate_lexicon;
          question_ids := {| ph_dtype := int32; ph_shape := [None] |};
          candidate_ids := {| ph_dtype := int32; ph_shape := [None; None] |};
          target_values := {| ph_dtype := float32; ph_shape := [None; None] |};
          random := Random 0;
          num_candidates := FrozenIdentifier_len candidate_lexicon;
          num_questions := FrozenIdentifier_len question_lexicon |}.

(** The objects [create_batches] can reach: the batcher [self] and the
    [data] argument ([None] when the caller leaves it out). *)
Record Store : Type := { self : AtomicBatcher; data : option Dataset }.

Definition set_random (s : random_state) (st : Store) : Store :=
  {| self := {| reference_data := reference_data (self st);
                question_lexicon := question_lexicon (self st);
                candidate_lexicon := candidate_lexicon (self st);
                question_ids := question_ids (self st);
                candidate_ids := candidate_ids (self st);
                target_values := target_values (self st);
                random := s;
                num_candidates := num_candidates (self st);
                num_questions := num_questions (self st) |};
     data := data st |}.

(** State-and-exception monad: a raised exception keeps the store as it
    was when raised. *)
Definition M (A : Type) : Type := Store -> result A * Store.

#[global] Instance M_ret : MRet M := fun _ a st => (Ok a, st).
#[global] Instance M_bind : MBind M := fun _ _ f m st =>
  match m st with
  | (Ok a, st') => f a st'
  | (Raise e, st') => (Raise e, st')
  end.

Definition get : M Store := fun st => (Ok st, st).
Definition lift {A} (r : result A) : M A := fun st => (r, st).

(** [self.random.randint(a, b)] *)
Definition self_random_randint (a b : Z) : M Z := fun st =>
  let '(r, s') := randint a b (random (self st)) in (r, set_random s' st).

(** [self.question_lexicon[inst['questions'][0]['question']]] *)
Definition question_id (slf : AtomicBatcher) (inst : Instance) : result Z :=
  key ← question_text inst;
  FrozenIdentifier_getitem (question_lexicon slf) key.

(** [self.candidate_lexicon[inst['questions'][0]['answers'][0]['text']]] *)
Definition answer_id (slf : AtomicBatcher) (inst : Instance) : result Z :=
  key ← answer_text inst;
  FrozenIdentifier_getitem (candidate_lexicon slf) key.

(** [self.random.randint(0, len(self.candidate_lexicon) - 1)] *)
Definition sample_negative : M Z :=
  st ← get;
  self_random_randint 0 (FrozenIdentifier_len (candidate_lexicon (self st)) - 1).

(** [instances[b * batch_size: (b + 1) * batch_size]] *)
Definition window (batch_size : Z) (instances : list Instance) (b : Z)
  : list Instance :=
  slice instances (b * batch_size) ((b + 1) * batch_size).

(** The body of the [for b in range(...)] loop up to its [yield]. *)
Definition batch_body (batch_size : Z) (instances : list Instance) (b : Z)
  : M Batch :=
  let batch := window batch_size instances b in
  question_ids ← mapM (fun inst => st ← get; lift (question_id (self st) inst)) batch;
  answer_ids ← mapM (fun inst => st ← get; lift (answer_id (self st) inst)) batch;
  neg ← mapM (fun _ => sample_negative) (range 0 batch_size);
  mret {| feed_question_ids := question_ids;
          feed_candidate_ids := zip answer_ids neg;
          feed_target_values := (fun _ => (1.0%float, 0.0%float)) <$> range 0 batch_size |}.

(** The generator object returned by [create_batches].  Calling the method
    runs nothing; the arguments are bound in the frame.  The first [next]
    evaluates [instances] and the [range], then every [next] runs the loop
    body for the next index up to its [yield]. *)
Inductive frame : Type :=
  | Created
  | Suspended (instances : list Instance) (rest : list Z)
  | Closed.

Record generator : Type := {
  gi_batch_size : Z;
  gi_test : bool;
  gi_frame : frame
}.

Definition create_batches (batch_size : Z) (test : bool) : generator :=
  {| gi_batch_size := batch_size; gi_test := test; gi_frame := Created |}.

Inductive event : Type :=
  | Yield (batch : Batch)
  | StopIteration
  | Raised (e : exception).

Definition with_frame (g : generator) (f : frame) : generator :=
  {| gi_batch_size := gi_batch_size g; gi_test := gi_test g; gi_frame := f |}.

(** [self.reference_data['instances'] if data is None else data['instances']] *)
Definition selected_instances (st : Store) : list Instance :=
  match data st with
  | None => instances (reference_data (self st))
  | Some data => instances data
  end.

(** The assignment to [instances] and the bounds of the [for] loop. *)
Definition loop_header (batch_size : Z) : M (list Instance * list Z) :=
  st ← get;
  let instances := selected_instances st in
  stop ← lift (floordiv (len instances) batch_size);
  mret (instances, range 0 stop).

Definition resume (g : generator) (instances : list Instance) (rest : list Z)
  (st : Store) : event * generator * Store :=
  match rest with
  | [] => (StopIteration, with_frame g Closed, st)
  | b :: rest' =>
      match batch_body (gi_batch_size g) instances b st with
      | (Ok batch, st') => (Yield batch, with_frame g (Suspended instances rest'), st')
      | (Raise e, st') => (Raised e, with_frame g Closed, st')
      end
  end.

(** [next(g)] *)
Definition next (g : generator) (st : Store) : event * generator * Store :=
  match gi_frame g with
  | Created =>
      match loop_header (gi_batch_size g) st with
      | (Ok (instances, rest), st') => resume g instances rest st'
      | (Raise e, st') => (Raised e, with_frame g Closed, st')
      end
  | Suspended instances rest => resume g instances rest st
  | Closed => (StopIteration, g, st)
  end.

(** What a consumer that exhausts the generator observes: the batches
    yielded, the exception that ended the iteration if one did, and the
    store it leaves. *)
Definition run : Type := list Batch * option exception * Store.

Fixpoint run_loop (batch_size : Z) (instances : list Instance) (rest : list Z)
  (st : Store) : run :=
  match rest with
  | [] => ([], None, st)
  | b :: rest' =>
      match batch_body batch_size instances b st with
      | (Ok batch, st') =>
          let '(batches, e, st'') := run_loop batch_size instances rest' st' in
          (batch :: batches, e, st'')
      | (Raise e, st') => ([], Some e, st')
      end
  end.

(** [list(g)], or a [for] loop over [g]. *)
Definition exhaust (g : generator) (st : Store) : run :=
  match gi_frame g with
  | Created =>
      match loop_header (gi_batch_size g) st with
      | (Ok (instances, rest), st') => run_loop (gi_batch_size g) instances rest st'
      | (Raise e, st') => ([], Some e, st')
      end
  | Suspended instances rest => run_loop (gi_batch_size g) instances rest st
  | Closed => ([], None, st)
  end.

(** [n] successive calls of [next], as [itertools.islice(g, n)] makes them:
    it stops calling at the first event that is not a [yield]. *)
Fixpoint pull (n : nat) (g : generator) (st : Store)
  : list event * generator * Store :=
  match n with
  | O => ([], g, st)
  | S n' =>
      match next g st with
      | (Yield batch, g', st') =>
          let '(evs, g'', st'') := pull n' g' st' in (Yield batch :: evs, g'', st'')
      | (ev, g', st') => ([ev], g', st')
      end
  end.
End AtomicBatcher.

(** ** Tensors and the scorer

    Tensors are nested lists over a scalar type with its zero, addition and
    multiplication.  The three TensorFlow operations the scorer composes are
    modelled by their documented meaning: [expand_dims] inserts an axis of
    size one, [*] multiplies element-wise after stretching axes of size one
    and rejects other mismatches, [reduce_sum] adds along an axis (here from
    the left end of the axis to the right). *)

Section Tensors.
Context {R : Type} (zero : R) (add mul : R -> R -> R).

(** [tf.expand_dims(t, 1)] of a rank-2 tensor. *)
Definition expand_dims_1 (t : list (list R)) : list (list (list R)) :=
  (fun row : list R => [row]) <$> t.

(** One axis of an element-wise operation with broadcasting. *)
Definition broadcast {A B C} (f : A -> B -> result C) (xs : list A) (ys : list B)
  : result (list C) :=
  match xs, ys with
  | [x], _ => mapM (f x) ys
  | _, [y] => mapM (fun x => f x y) xs
  | _, _ =>
      if decide (length xs = length ys)
      then mapM (fun xy => f xy.1 xy.2) (zip xs ys)
      else Raise ValueError
  end.

(** [x * y] on rank-3 tensors. *)
Definition multiply3 (x y : list (list (list R))) : result (list (list (list R))) :=
  broadcast (broadcast (broadcast (fun a b => Ok (mul a b)))) x y.

Definition sum_list (v : list R) : R := foldr add zero v.

(** [tf.reduce_sum(t, 2)] of a rank-3 tensor. *)
Definition reduce_sum_2 (t : list (list (list R))) : list (list R) :=
  (fun plane : list (list R) => sum_list <$> plane) <$> t.

Definition create_dot_product_scorer
  (question_encodings : list (list R))
  (candidate_encodings : list (list (list R))) : result (list (list R)) :=
  product ← multiply3 (expand_dims_1 question_encodings) candidate_encodings;
  mret (reduce_sum_2 product).

(** The inner product of two vectors, summed in index order. *)
Definition inner_product (q c : list R) : R := sum_list (zip_with mul q c).
End Tensors.

(** ** Predicates used in the statements *)

Section Predicates.
Context {RS : RandomSource}.

(** [st'] differs from [st] at most in the state of [self.random]. *)
Definition same_but_random (st st' : Store) : Prop :=
  st' = set_random (random (self st')) st.

(** What a yielded batch is, in terms of the window it was built from. *)
Definition batch_of (slf : AtomicBatcher) (batch_size : Z) (w : list Instance)
  (batch : Batch) : Prop :=
  Forall2 (fun inst id => question_id slf inst = Ok id) w (feed_question_ids batch) /\
  (exists answer_ids neg,
      Forall2 (fun inst id => answer_id slf inst = Ok id) w answer_ids /\
      feed_candidate_ids batch = zip answer_ids neg /\
      length neg = Z.to_nat batch_size /\
      Forall (fun x => 0 <= x < FrozenIdentifier_len (candidate_lexicon slf)) neg) /\
  feed_target_values batch = replicate (Z.to_nat batch_size) (1.0%float, 0.0%float).

(** Both texts the batcher reads from the instance are in the lexicons. *)
Definition known (slf : AtomicBatcher) (inst : Instance) : Prop :=
  (exists id, question_id slf inst = Ok id) /\ (exists id, answer_id slf inst = Ok id).

(** Position [j] of [batch] was built from [inst]. *)
Definition element_of (slf : AtomicBatcher) (batch : Batch) (j : nat)
  (inst : Instance) : Prop :=
  exists qid pos neg,
    feed_question_ids batch !! j = Some qid /\
    feed_candidate_ids batch !! j = Some (pos, neg) /\
    feed_target_values batch !! j = Some (1.0%float, 0.0%float) /\
    question_id slf inst = Ok qid /\
    answer_id slf inst = Ok pos.

(** The batches a consumer of the whole generator receives. *)
Definition yielded (g : generator) (st : Store) : list Batch := (exhaust g st).1.1.

(** Both subscript chains the batcher applies to the instance succeed: it has
    a first question, and that question has a first answer. *)
Definition well_formed (inst : Instance) : Prop :=
  (exists q, question_text inst = Ok q) /\ (exists a, answer_text inst = Ok a).

(** Everything [create_batches] can reach is the same in [st'] as in [st],
    the state of [self.random] apart. *)
Definition unchanged_except_random (st st' : Store) : Prop :=
  reference_data (self st') = reference_data (self st) /\
  question_lexicon (self st') = question_lexicon (self st) /\
  candidate_lexicon (self st') = candidate_lexicon (self st) /\
  question_ids (self st') = question_ids (self st) /\
  candidate_ids (self st') = candidate_ids (self st) /\
  target_values (self st') = target_values (self st) /\
  num_candidates (self st') = num_candidates (self st) /\
  num_questions (self st') = num_questions (self st) /\
  data st' = data st.

(** Two generator objects that differ at most in the [test] argument. *)
Definition same_but_test (g1 g2 : generator) : Prop :=
  gi_batch_size g1 = gi_batch_size g2 /\ gi_frame g1 = gi_frame g2.
End Predicates.

(** ** Example data *)

(** An additive (Weyl) generator, as one concrete random source: the state
    advances by a fixed odd increment, and a draw below [n] is the new state
    modulo [n]. *)
Definition weyl_next (s : Z) : Z := s + 40503.

Definition weyl_range (n s : Z) :
  0 < n -> 0 <= (weyl_next s `mod` n, weyl_next s).1 < n.
Proof. intros Hn. simpl. apply Z.mod_pos_bound. exact Hn. Qed.

Definition weyl : RandomSource := {|
  random_state := Z;
  Random := fun seed => seed;
  randbelow := fun n s => (weyl_next s `mod` n, weyl_next s);
  randbelow_range := weyl_range
|}.

Definition asks (q a : string) : Instance :=
  {| questions := [ {| question := q; answers := [ {| text := a |} ] |} ] |}.

(** Two global candidates, three instances with distinct questions, each
    answered by "Paris". *)
Definition paris_data : Dataset :=
  {| globals := {| candidates := [ {| text := "Paris" |}; {| text := "Berlin" |} ] |};
     instances := [ asks "Which city is the capital of France?" "Paris";
                    asks "Where is the Louvre?" "Paris";
                    asks "Where is the Eiffel Tower?" "Paris" ] |}.

(** Test data whose only question the reference data does not contain. *)
Definition unseen_data : Dataset :=
  {| globals := globals paris_data;
     instances := [ asks "Where is the Brandenburg Gate?" "Berlin" ] |}.

(** The batcher [AtomicBatcher(paris_data)]. *)
Definition paris_batcher {RS : RandomSource} : AtomicBatcher :=
  let question_lexicon :=
    FrozenIdentifier_build
      (list_to_set [ "Which city is the capital of France?"%string;
                     "Where is the Louvre?"%string;
                     "Where is the Eiffel Tower?"%string ]) in
  let candidate_lexicon :=
    FrozenIdentifier_build (list_to_set [ "Paris"%string; "Berlin"%string ]) in
  {| reference_data := paris_data;
     question_lexicon := question_lexicon;
     candidate_lexicon := candidate_lexicon;
     question_ids := {| ph_dtype := int32; ph_shape := [None] |};
     candidate_ids := {| ph_dtype := int32; ph_shape := [None; None] |};
     target_values := {| ph_dtype := float32; ph_shape := [None; None] |};
     random := Random 0;
     num_candidates := FrozenIdentifier_len candidate_lexicon;
     num_questions := FrozenIdentifier_len question_lexicon |}.

Definition paris_store (data : option Dataset) : Store (RS := weyl) :=
  {| self := paris_batcher; data := data |}.

(** Reference data without global candidates, and its batcher. *)
Definition no_candidates_data : Dataset :=
  {| globals := {| candidates := [] |};
     instances := [ asks "Which city is the capital of France?" "Paris" ] |}.

Definition no_candidates_batcher {RS : RandomSource} : AtomicBatcher :=
  let question_lexicon :=
    FrozenIdentifier_build
      (list_to_set [ "Which city is the capital of France?"%string ]) in
  let candidate_lexicon := FrozenIdentifier_build (list_to_set []) in
  {| reference_data := no_candidates_data;
     question_lexicon := question_lexicon;
     candidate_lexicon := candidate_lexicon;
     question_ids := {| ph_dtype := int32; ph_shape := [None] |};
     candidate_ids := {| ph_dtype := int32; ph_shape := [None; None] |};
     target_values := {| ph_dtype := float32; ph_shape := [None; None] |};
     random := Random 0;
     num_candidates := FrozenIdentifier_len candidate_lexicon;
     num_questions := FrozenIdentifier_len question_lexicon |}.

Definition no_candidates_store : Store (RS := weyl) :=
  {| self := no_candidates_batcher; data := None |}.

(** ** Further notions used in the statements *)

Section Draws.
Context {RS : RandomSource}.

(** The batches among the events of a sequence of [next] calls. *)
Definition yields (evs : list event) : list Batch :=
  omap (fun ev => match ev with Yield batch => Some batch | _ => None end) evs.

(** [k] successive draws below [n] from the random source in state [s]: the
    integers drawn and the state the source is left in. *)
Fixpoint draws (n : Z) (k : nat) (s : random_state) : list Z * random_state :=
  match k with
  | O => ([], s)
  | S k' =>
      let '(x, s1) := randbelow n s in
      let '(xs, s2) := draws n k' s1 in
      (x :: xs, s2)
  end.

(** Two batches that agree in everything but the sampled negative ids. *)
Definition same_but_negatives (batch1 batch2 : Batch) : Prop :=
  feed_question_ids batch1 = feed_question_ids batch2 /\
  (feed_candidate_ids batch1).*1 = (feed_candidate_ids batch2).*1 /\
  feed_target_values batch1 = feed_target_values batch2.
End Draws.

(** The event that ends an iteration: [StopIteration] after the last batch,
    or the exception raised. *)
Definition terminal (e : option exception) : event :=
  match e with
  | None => StopIteration
  | Some e => Raised e
  end.

Definition is_yield (ev : event) : Prop :=
  match ev with
  | Yield _ => True
  | _ => False
  end.

(** ** Dense embeddings, the loss and the assembled reader

    A tensor of the computation graph is modelled by its value under the
    session's variable values and a feed: a [Node].  [tf.Variable] adds a
    variable to the graph; the graph is the list of the shapes of the
    variables created so far, a variable is named by its position, and the
    session holds one value per variable.  A node whose value the engine
    cannot compute (a variable without a value, a row index outside the
    table, mismatched shapes) has no value. *)

Section Graph.
Context {RS : RandomSource}.
Context {R : Type} (zero : R) (add mul : R -> R -> R).

(** [tf.nn.softmax_cross_entropy_with_logits] on one row of logits and one
    row of labels: a function of the numeric engine, kept abstract. *)
Context (cross_entropy : list R -> list float -> R).

Definition Graph : Type := list (Z * Z).
Definition Values : Type := list (list (list R)).
Definition Node (A : Type) : Type := Values -> Batch -> option A.

(** The three placeholders of the batcher, as nodes: their value is what the
    feed dict holds for them. *)
Definition question_ids_node : Node (list Z) :=
  fun _ feed => Some (feed_question_ids feed).
Definition candidate_ids_node : Node (list (list Z)) :=
  fun _ feed => Some ((fun pn : Z * Z => [pn.1; pn.2]) <$> feed_candidate_ids feed).
Definition target_values_node : Node (list (list float)) :=
  fun _ feed =>
    Some ((fun t : float * float => [t.1; t.2]) <$> feed_target_values feed).

(** One row of [tf.gather(params, ids)]: row [id] of [params], for an [id]
    in [[0, len(params))]. *)
Definition gather_row (params : list (list R)) (id : Z) : option (list R) :=
  if decide (0 <= id) then params !! Z.to_nat id else None.

(** [tf.gather(params, ids)] for [ids] of rank 1. *)
Definition gather (params : list (list R)) (ids : list Z) : option (list (list R)) :=
  mapM (gather_row params) ids.

(** [create_dense_embedding] for [ids] of rank 1 (the question ids). *)
Definition create_dense_embedding (ids : Node (list Z)) (repr_dim num_symbols : Z)
  (graph : Graph) : Node (list (list R)) * Graph :=
  let embeddings : Node (list (list R)) := fun values _ => values !! length graph in
  let encodings : Node (list (list R)) := fun values feed =>
    params ← embeddings values feed;
    ids ← ids values feed;
    gather params ids in
  (encodings, graph ++ [(num_symbols, repr_dim)]).

(** [create_dense_embedding] for [ids] of rank 2 (the candidate ids). *)
Definition create_dense_embedding_2 (ids : Node (list (list Z)))
  (repr_dim num_symbols : Z) (graph : Graph)
  : Node (list (list (list R))) * Graph :=
  let embeddings : Node (list (list R)) := fun values _ => values !! length graph in
  let encodings : Node (list (list (list R))) := fun values feed =>
    params ← embeddings values feed;
    ids ← ids values feed;
    mapM (gather params) ids in
  (encodings, graph ++ [(num_symbols, repr_dim)]).

Definition result_value {A} (r : result A) : option A :=
  match r with
  | Ok a => Some a
  | Raise _ => None
  end.

(** [create_dot_product_scorer] on nodes. *)
Definition create_dot_product_scorer_node
  (question_encodings : Node (list (list R)))
  (candidate_encodings : Node (list (list (list R)))) : Node (list (list R)) :=
  fun values feed =>
    q ← question_encodings values feed;
    c ← candidate_encodings values feed;
    result_value (create_dot_product_scorer zero add mul q c).

(** [create_softmax_loss]: one loss per row; logits and labels must have
    the same shape. *)
Definition create_softmax_loss (scores : Node (list (list R)))
  (target_values : Node (list (list float))) : Node (list R) :=
  fun values feed =>
    s ← scores values feed;
    t ← target_values values feed;
    if decide (Forall2 (fun row labels => length row = length labels) s t)
    then Some (zip_with cross_entropy s t)
    else None.

Record MultipleChoiceReader : Type := {
  loss : Node (list R);
  scores : Node (list (list R));
  batcher : AtomicBatcher
}.

(** [MultipleChoiceReader.__init__] *)
Definition MultipleChoiceReader_init (batcher : AtomicBatcher)
  (scores : Node (list (list R))) (loss : Node (list R)) : MultipleChoiceReader :=
  {| loss := loss; scores := scores; batcher := batcher |}.

(** [options['repr_dim']] *)
Definition options_getitem (options : gmap string Z) (key : string) : result Z :=
  match options !! key with
  | Some v => Ok v
  | None => Raise (KeyError key)
  end.

Definition create_model_f_reader (reference_data : Dataset)
  (options : gmap string Z) (graph : Graph) : result (MultipleChoiceReader * Graph) :=
  batcher ← AtomicBatcher_init reference_data;
  repr_dim ← options_getitem options "repr_dim";
  let '(question_encoder, graph) :=
    create_dense_embedding question_ids_node repr_dim (num_questions batcher) graph in
  repr_dim ← options_getitem options "repr_dim";
  let '(candidate_encoder, graph) :=
    create_dense_embedding_2 candidate_ids_node repr_dim (num_candidates batcher)
      graph in
  let scores := create_dot_product_scorer_node question_encoder candidate_encoder in
  let loss := create_softmax_loss scores target_values_node in
  mret (MultipleChoiceReader_init batcher scores loss, graph).

(** A variable value of the declared shape [(rows, columns)]. *)
Definition has_shape (shape : Z * Z) (value : list (list R)) : Prop :=
  len value = shape.1 /\ Forall (fun row => len row = shape.2) value.
End Graph.

(** ** The training driver

    [train_reader] is modelled by what it does with the batcher: the calls
    of [sess.run] it makes, in order, each with the feed dict it passes, the
    exception that ends it if the batcher raises one, and the reader it
    leaves.  The session itself (the optimiser step, the values of the
    variables, the printing of the scores) belongs to the numeric engine;
    a call of [sess.run] is taken to return. *)

Section Training.
Context {RS : RandomSource} {R : Type}.







End Training.

(** ** Example reader *)

(** A stand-in for the engine's cross entropy over integer scores: the
    margin by which the second score exceeds the first. *)
Definition margin (row : list Z) (labels : list float) : Z :=
  match row with
  | [positive; negative] => negative - positive
  | _ => 0
  end.

Definition paris_options : gmap string Z := {[ "repr_dim"%string := 2 ]}.

(** The reader [create_model_f_reader(paris_data, repr_dim=2)]. *)
Definition paris_reader : MultipleChoiceReader (RS := weyl) (R := Z) :=
  match create_model_f_reader 0 Z.add Z.mul margin paris_data paris_options [] with
  | Ok (reader, _) => reader
  | Raise _ =>
      MultipleChoiceReader_init paris_batcher (fun _ _ => None) (fun _ _ => None)
  end.

(** Values for its two embedding tables: three questions and two
    candidates, each with two coordinates. *)
Definition paris_values : Values (R := Z) :=
  [ [[1; 0]; [0; 1]; [1; 1]]; [[2; 3]; [4; 5]] ].

(** The one batch the Paris batcher yields with batch size 2. *)
Definition paris_batch : Batch :=
  {| feed_question_ids := [2; 1];
     feed_candidate_ids := [(1, 1); (1, 0)];
     feed_target_values := [(1.0%float, 0.0%float); (1.0%float, 0.0%float)] |}.

(** Reference data with a single global candidate, and a store around the
    batcher built from it. *)
Definition single_candidate_data : Dataset :=
  {| globals := {| candidates := [ {| text := "Berlin" |} ] |};
     instances := [ asks "Where is the Brandenburg Gate?" "Berlin";
                    asks "Which city is the capital of Germany?" "Berlin" ] |}.

Definition single_candidate_store : Store (RS := weyl) :=
  match AtomicBatcher_init single_candidate_data with
  | Ok b => {| self := b; data := None |}
  | Raise _ => paris_store None
  end.

(** * Properties *)

(** ** The [result] monad and list comprehensions *)

Ltac unfold_result := unfold mbind, mret, result_bind, result_ret in *.

Section Comprehension.
Context {A B : Type} (f : A -> result B).

Lemma mapM_Ok_elim l k : mapM f l = Ok k -> Forall2 (fun x y => f x = Ok y) l k.
Proof.
  revert k. induction l as [|x l IH]; intros k; simpl.
  - intros [= <-]. constructor.
  - unfold_result. destruct (f x) as [y|e] eqn:Hx; [|discriminate].
    destruct (mapM f l) as [k'|e]; [|discriminate].
    intros [= <-]. constructor; auto.
Qed.

Lemma mapM_Ok_intro l k : Forall2 (fun x y => f x = Ok y) l k -> mapM f l = Ok k.
Proof.
  induction 1 as [|x y l k Hx _ IH]; simpl; [done|].
  unfold_result. by rewrite Hx, IH.
Qed.

Lemma mapM_Ok_length l k : mapM f l = Ok k -> length k = length l.
Proof. intros H. symmetry. eapply Forall2_length, mapM_Ok_elim, H. Qed.

Lemma mapM_Raise_elim l e : mapM f l = Raise e -> Exists (fun x => f x = Raise e) l.
Proof.
  induction l as [|x l IH]; simpl; [discriminate|].
  unfold_result. destruct (f x) as [y|e'] eqn:Hx.
  - destruct (mapM f l) as [k'|e']; [discriminate|].
    intros [= <-]. right. by apply IH.
  - intros [= <-]. by left.
Qed.

Lemma mapM_total l :
  Forall (fun x => exists y, f x = Ok y) l -> exists k, mapM f l = Ok k.
Proof.
  induction 1 as [|x l [y Hx] _ [k IH]]; simpl; [by eexists|].
  unfold_result. rewrite Hx, IH. by eexists.
Qed.

Lemma mapM_result_app l1 l2 k1 k2 :
  mapM f l1 = Ok k1 -> mapM f l2 = Ok k2 -> mapM f (l1 ++ l2) = Ok (k1 ++ k2).
Proof.
  intros H1 H2. apply mapM_Ok_intro, Forall2_app; by apply mapM_Ok_elim.
Qed.
End Comprehension.

(** ** Slices, ranges and windows *)

Lemma slice_inside {A} (l : list A) (lo hi : Z) :
  0 <= lo <= hi -> hi <= len l ->
  slice l lo hi = take (Z.to_nat (hi - lo)) (drop (Z.to_nat lo) l).
Proof.
  intros Hlo Hhi. unfold slice, slice_bound, len in *.
  destruct (Z.ltb_spec lo 0), (Z.ltb_spec hi 0); try lia.
  by rewrite !Z.min_l by lia.
Qed.

Lemma slice_inside_length {A} (l : list A) (lo hi : Z) :
  0 <= lo <= hi -> hi <= len l -> len (slice l lo hi) = hi - lo.
Proof.
  intros Hlo Hhi. rewrite slice_inside by done. unfold len in *.
  rewrite length_take, length_drop. lia.
Qed.

Lemma range_length lo hi : length (range lo hi) = Z.to_nat (hi - lo).
Proof. unfold range. apply length_seqZ. Qed.

Lemma range_lookup (hi : Z) (k : nat) (b : Z) :
  range 0 hi !! k = Some b -> b = Z.of_nat k /\ Z.of_nat k < hi.
Proof.
  unfold range. intros H. apply lookup_seqZ in H. lia.
Qed.

(** ** The loop body *)

Ltac unfold_M := unfold mbind, mret, M_bind, M_ret, get, lift in *.

Section BatchBody.
Context {RS : RandomSource}.

Lemma set_random_self st : set_random (random (self st)) st = st.
Proof. by destruct st as [[] ?]. Qed.

Lemma same_but_random_refl st : same_but_random st st.
Proof. unfold same_but_random. by rewrite set_random_self. Qed.

Lemma same_but_random_set s st : same_but_random st (set_random s st).
Proof. reflexivity. Qed.

Lemma same_but_random_trans st1 st2 st3 :
  same_but_random st1 st2 -> same_but_random st2 st3 -> same_but_random st1 st3.
Proof. unfold same_but_random. intros H12 H23. rewrite H23 at 1. by rewrite H12. Qed.

Lemma same_but_random_self st st' :
  same_but_random st st' ->
  question_lexicon (self st') = question_lexicon (self st) /\
  candidate_lexicon (self st') = candidate_lexicon (self st).
Proof. intros ->. done. Qed.

(** A comprehension that only reads [self] leaves the store alone. *)
Lemma mapM_reader {A B} (f : AtomicBatcher -> A -> result B) l st :
  mapM (M := M) (fun x => st ← get; lift (f (self st) x)) l st
  = (mapM (f (self st)) l, st).
Proof.
  induction l as [|x l IH]; simpl; [done|].
  unfold_M. unfold_result. destruct (f (self st) x) as [y|e]; [|done].
  rewrite IH. by destruct (mapM (f (self st)) l).
Qed.

Lemma sample_negative_eq st :
  sample_negative st =
  let n := FrozenIdentifier_len (candidate_lexicon (self st)) in
  if 0 <? n
  then (Ok (randbelow n (random (self st))).1,
        set_random (randbelow n (random (self st))).2 st)
  else (Raise ValueError, st).
Proof.
  unfold sample_negative, self_random_randint, randint, randrange.
  unfold_M. cbn zeta.
  replace (FrozenIdentifier_len (candidate_lexicon (self st)) - 1 + 1 - 0)
    with (FrozenIdentifier_len (candidate_lexicon (self st))) by lia.
  destruct (0 <? _); [|by rewrite set_random_self].
  by destruct (randbelow _ _).
Qed.

Lemma sample_negative_frame st r st' :
  sample_negative st = (r, st') -> same_but_random st st'.
Proof.
  rewrite sample_negative_eq. cbn zeta. destruct (0 <? _); intros [= <- <-].
  - apply same_but_random_set.
  - apply same_but_random_refl.
Qed.

Lemma sample_negative_Ok st x st' :
  sample_negative st = (Ok x, st') ->
  0 <= x < FrozenIdentifier_len (candidate_lexicon (self st)).
Proof.
  rewrite sample_negative_eq. cbn zeta.
  destruct (Z.ltb_spec 0 (FrozenIdentifier_len (candidate_lexicon (self st))));
    intros [= <- <-].
  by apply randbelow_range.
Qed.

(** The comprehension [[self.random.randint(...) for _ in range(...)]]. *)
Lemma sample_frame {A} (l : list A) st r st' :
  mapM (M := M) (fun _ => sample_negative) l st = (r, st') ->
  same_but_random st st'.
Proof.
  revert st r st'. induction l as [|x l IH]; intros st r st'; simpl.
  - intros [= <- <-]. apply same_but_random_refl.
  - unfold_M. destruct (sample_negative st) as [[y|e] st1] eqn:H1.
    + apply sample_negative_frame in H1.
      destruct (mapM (M := M) _ l st1) as [[k|e] st2] eqn:H2; intros [= <- <-];
        eapply same_but_random_trans; eauto.
    + intros [= <- <-]. by eapply sample_negative_frame.
Qed.

Lemma sample_Ok {A} (l : list A) st negs st' :
  mapM (M := M) (fun _ => sample_negative) l st = (Ok negs, st') ->
  length negs = length l /\
  Forall (fun x => 0 <= x < FrozenIdentifier_len (candidate_lexicon (self st))) negs.
Proof.
  revert st negs st'. induction l as [|x l IH]; intros st negs st'; simpl.
  - intros [= <- <-]. by split.
  - unfold_M. destruct (sample_negative st) as [[y|e] st1] eqn:H1; [|done].
    destruct (mapM (M := M) _ l st1) as [[k|e] st2] eqn:H2; [|done].
    intros [= <- <-]. apply IH in H2 as [Hlen Hall].
    pose proof (sample_negative_frame _ _ _ H1) as [_ Hlex]%same_but_random_self.
    rewrite Hlex in Hall. apply sample_negative_Ok in H1.
    split; [simpl; by f_equal | by constructor].
Qed.

Lemma sample_total {A} (l : list A) st :
  0 < FrozenIdentifier_len (candidate_lexicon (self st)) ->
  exists negs st', mapM (M := M) (fun _ => sample_negative) l st = (Ok negs, st').
Proof.
  revert st. induction l as [|x l IH]; intros st Hn; simpl; [by do 2 eexists|].
  unfold_M. rewrite sample_negative_eq. cbn zeta.
  destruct (Z.ltb_spec 0 (FrozenIdentifier_len (candidate_lexicon (self st))));
    [|lia].
  destruct (IH (set_random (randbelow
    (FrozenIdentifier_len (candidate_lexicon (self st))) (random (self st))).2 st))
    as (negs & st' & ->); [done|].
  by do 2 eexists.
Qed.

Lemma sample_empty_lexicon {A} (x : A) (l : list A) st :
  FrozenIdentifier_len (candidate_lexicon (self st)) <= 0 ->
  mapM (M := M) (fun _ => sample_negative) (x :: l) st = (Raise ValueError, st).
Proof.
  intros Hn. simpl. unfold_M. rewrite sample_negative_eq. cbn zeta.
  by destruct (Z.ltb_spec 0 (FrozenIdentifier_len (candidate_lexicon (self st))));
    [lia|].
Qed.

(** The loop body, with the two lookups separated from the sampling. *)
Lemma batch_body_eq batch_size instances b st :
  batch_body batch_size instances b st =
  match mapM (question_id (self st)) (window batch_size instances b) with
  | Raise e => (Raise e, st)
  | Ok question_ids =>
      match mapM (answer_id (self st)) (window batch_size instances b) with
      | Raise e => (Raise e, st)
      | Ok answer_ids =>
          match mapM (M := M) (fun _ => sample_negative) (range 0 batch_size) st with
          | (Raise e, st') => (Raise e, st')
          | (Ok neg, st') =>
              (Ok {| feed_question_ids := question_ids;
                     feed_candidate_ids := zip answer_ids neg;
                     feed_target_values :=
                       (fun _ => (1.0%float, 0.0%float)) <$> range 0 batch_size |},
               st')
          end
      end
  end.
Proof.
  unfold batch_body. cbn zeta. unfold mbind at 1, M_bind at 1.
  rewrite (mapM_reader question_id).
  destruct (mapM (question_id (self st)) _) as [qs|e]; [|done].
  unfold mbind at 1, M_bind at 1. rewrite (mapM_reader answer_id).
  destruct (mapM (answer_id (self st)) _) as [ans|e]; [|done].
  unfold mbind at 1, M_bind at 1.
  by destruct (mapM (M := M) _ (range 0 batch_size) st) as [[neg|e] st'].
Qed.

Lemma batch_body_frame batch_size instances b st r st' :
  batch_body batch_size instances b st = (r, st') -> same_but_random st st'.
Proof.
  rewrite batch_body_eq.
  destruct (mapM (question_id _) _); [|intros [= <- <-]; apply same_but_random_refl].
  destruct (mapM (answer_id _) _); [|intros [= <- <-]; apply same_but_random_refl].
  destruct (mapM (M := M) _ (range 0 batch_size) st) as [[neg|e] st1] eqn:Hs;
    intros [= <- <-]; by eapply sample_frame.
Qed.
End BatchBody.

(** ** The generator *)

Section Generator.
Context {RS : RandomSource}.

Lemma loop_header_eq batch_size st :
  loop_header batch_size st =
  if batch_size =? 0 then (Raise ZeroDivisionError, st)
  else (Ok (selected_instances st,
            range 0 (len (selected_instances st) `div` batch_size)), st).
Proof.
  unfold loop_header, floordiv. unfold_M. by destruct (batch_size =? 0).
Qed.

Lemma exhaust_create_batches batch_size test st :
  batch_size <> 0 ->
  exhaust (create_batches batch_size test) st =
  run_loop batch_size (selected_instances st)
    (range 0 (len (selected_instances st) `div` batch_size)) st.
Proof.
  intros HB. unfold exhaust, create_batches. simpl. rewrite loop_header_eq.
  by destruct (Z.eqb_spec batch_size 0).
Qed.

Lemma next_create_batches batch_size test st :
  batch_size <> 0 ->
  next (create_batches batch_size test) st =
  resume (create_batches batch_size test) (selected_instances st)
    (range 0 (len (selected_instances st) `div` batch_size)) st.
Proof.
  intros HB. unfold next, create_batches. simpl. rewrite loop_header_eq.
  by destruct (Z.eqb_spec batch_size 0).
Qed.

(** Exhausting a generator is calling [next] until it stops or raises. *)
Lemma exhaust_resume g instances rest st :
  run_loop (gi_batch_size g) instances rest st =
  match resume g instances rest st with
  | (Yield batch, g', st') =>
      let '(batches, e, st'') := exhaust g' st' in (batch :: batches, e, st'')
  | (StopIteration, _, st') => ([], None, st')
  | (Raised e, _, st') => ([], Some e, st')
  end.
Proof.
  unfold resume. destruct rest as [|b rest]; simpl; [done|].
  by destruct (batch_body _ _ b st) as [[batch|e] st1].
Qed.

Lemma exhaust_next g st :
  exhaust g st =
  match next g st with
  | (Yield batch, g', st') =>
      let '(batches, e, st'') := exhaust g' st' in (batch :: batches, e, st'')
  | (StopIteration, _, st') => ([], None, st')
  | (Raised e, _, st') => ([], Some e, st')
  end.
Proof.
  unfold exhaust at 1, next. destruct (gi_frame g) as [|instances rest|]; [| |done].
  - destruct (loop_header _ st) as [[[instances rest]|e] st1]; [|done].
    apply exhaust_resume.
  - apply exhaust_resume.
Qed.

Lemma batch_body_Ok batch_size instances b st batch st' :
  batch_body batch_size instances b st = (Ok batch, st') ->
  batch_of (self st) batch_size (window batch_size instances b) batch.
Proof.
  rewrite batch_body_eq.
  destruct (mapM (question_id _) _) as [qs|] eqn:Hq; [|done].
  destruct (mapM (answer_id _) _) as [ans|] eqn:Ha; [|done].
  destruct (mapM (M := M) _ (range 0 batch_size) st) as [[neg|] st1] eqn:Hs; [|done].
  intros [= <- <-]. apply sample_Ok in Hs as [Hlen Hneg].
  rewrite range_length, Z.sub_0_r in Hlen.
  split; [by apply mapM_Ok_elim|]. split.
  - exists ans, neg. split; [by apply mapM_Ok_elim|done].
  - simpl. erewrite const_fmap by done. by rewrite range_length, Z.sub_0_r.
Qed.

Lemma batch_of_frame st st' batch_size w batch :
  same_but_random st st' ->
  batch_of (self st') batch_size w batch -> batch_of (self st) batch_size w batch.
Proof. by intros ->. Qed.

Lemma run_loop_frame batch_size instances rest st batches e st' :
  run_loop batch_size instances rest st = (batches, e, st') ->
  same_but_random st st'.
Proof.
  revert st batches e st'.
  induction rest as [|b rest IH]; intros st batches e st'; simpl.
  - intros [= <- <- <-]. apply same_but_random_refl.
  - destruct (batch_body _ _ b st) as [[batch|e1] st1] eqn:Hb.
    + destruct (run_loop _ _ rest st1) as [[bs e2] st2] eqn:Hr.
      intros [= <- <- <-]. eapply same_but_random_trans.
      * by eapply batch_body_frame.
      * by eapply IH.
    + intros [= <- <- <-]. by eapply batch_body_frame.
Qed.

(** The batches of a run are built, in order, from the windows of the
    indices the loop went through; a run that ends without an exception
    went through all of them. *)
Lemma run_loop_batches batch_size instances rest st batches e st' :
  run_loop batch_size instances rest st = (batches, e, st') ->
  Forall2 (fun b batch =>
             batch_of (self st) batch_size (window batch_size instances b) batch)
          (take (length batches) rest) batches /\
  (e = None -> length batches = length rest).
Proof.
  revert st batches e st'.
  induction rest as [|b rest IH]; intros st batches e st'; simpl.
  - intros [= <- <- <-]. split; [constructor|done].
  - destruct (batch_body _ _ b st) as [[batch|e1] st1] eqn:Hb.
    + destruct (run_loop _ _ rest st1) as [[bs e2] st2] eqn:Hr.
      intros [= <- <- <-]. apply IH in Hr as [Hall Hlen].
      split; [|by intros He; simpl; f_equal; apply Hlen].
      simpl. constructor; [by eapply batch_body_Ok|].
      eapply Forall2_impl; [exact Hall|]. intros b' batch'.
      apply batch_of_frame. by eapply batch_body_frame.
    + intros [= <- <- <-]. split; [constructor|done].
Qed.

(** If every iteration can yield, the run ends without an exception. *)
Lemma run_loop_total batch_size instances rest st :
  (forall b st1, b ∈ rest -> same_but_random st st1 ->
     exists batch st2, batch_body batch_size instances b st1 = (Ok batch, st2)) ->
  exists batches st', run_loop batch_size instances rest st = (batches, None, st').
Proof.
  revert st. induction rest as [|b rest IH]; intros st Hok; simpl.
  - by do 2 eexists.
  - destruct (Hok b st) as (batch & st1 & Hb);
      [by left|apply same_but_random_refl|].
    rewrite Hb. destruct (IH st1) as (bs & st2 & ->); [|by do 2 eexists].
    intros b' st' Hin Hst'. apply Hok; [by right|].
    eapply same_but_random_trans; [|exact Hst']. by eapply batch_body_frame.
Qed.
End Generator.

(** ** Windows and the elements of a yielded batch *)

Section Windows.
Context {RS : RandomSource}.

Lemma window_full batch_size (instances : list Instance) (k : nat) :
  0 < batch_size ->
  (Z.of_nat k + 1) * batch_size <= len instances ->
  window batch_size instances (Z.of_nat k)
  = take (Z.to_nat batch_size) (drop (k * Z.to_nat batch_size) instances)
  /\ length (window batch_size instances (Z.of_nat k)) = Z.to_nat batch_size.
Proof.
  intros HB Hk. unfold window. rewrite slice_inside by lia.
  replace (Z.to_nat ((Z.of_nat k + 1) * batch_size - Z.of_nat k * batch_size))
    with (Z.to_nat batch_size) by lia.
  replace (Z.to_nat (Z.of_nat k * batch_size)) with (k * Z.to_nat batch_size)%nat
    by lia.
  split; [done|]. unfold len in Hk. rewrite length_take, length_drop. nia.
Qed.

Lemma window_lookup batch_size (instances : list Instance) (k j : nat) inst :
  0 < batch_size ->
  (Z.of_nat k + 1) * batch_size <= len instances ->
  window batch_size instances (Z.of_nat k) !! j = Some inst ->
  instances !! (k * Z.to_nat batch_size + j)%nat = Some inst /\
  (j < Z.to_nat batch_size)%nat.
Proof.
  intros HB Hk. destruct (window_full batch_size instances k HB Hk) as [-> _].
  intros [Hj Hlt]%lookup_take_Some. by rewrite lookup_drop in Hj.
Qed.

Lemma last_window_bound batch_size L (k : nat) :
  0 < batch_size -> 0 <= L -> Z.of_nat k < L `div` batch_size ->
  (Z.of_nat k + 1) * batch_size <= L - L `mod` batch_size.
Proof.
  intros HB HL Hk. rewrite Z.mod_eq by lia.
  replace (L - (L - batch_size * (L `div` batch_size)))
    with (batch_size * (L `div` batch_size)) by lia.
  nia.
Qed.

Lemma zip_Forall2 {A} (P : A -> Z -> Prop) (Q : Z -> Prop) w ans neg :
  Forall2 P w ans -> Forall Q neg -> length neg = length ans ->
  Forall2 (fun x (pn : Z * Z) => P x pn.1 /\ Q pn.2) w (zip ans neg).
Proof.
  intros Hw. revert neg. induction Hw as [|x a w ans Hx _ IH]; intros neg Hneg Hlen.
  - constructor.
  - destruct neg as [|n neg]; [done|]. apply Forall_cons in Hneg as [Hn Hneg].
    simpl. constructor; [done|]. apply IH; [done|]. by injection Hlen.
Qed.

Lemma batch_of_shape slf batch_size w batch :
  batch_of slf batch_size w batch -> length w = Z.to_nat batch_size ->
  length (feed_question_ids batch) = Z.to_nat batch_size /\
  length (feed_candidate_ids batch) = Z.to_nat batch_size /\
  length (feed_target_values batch) = Z.to_nat batch_size.
Proof.
  intros (Hq & (ans & neg & Ha & -> & Hlen & _) & ->) Hw.
  apply Forall2_length in Hq, Ha.
  rewrite length_zip, length_replicate. lia.
Qed.

Lemma batch_of_candidates slf batch_size w batch :
  batch_of slf batch_size w batch -> length w = Z.to_nat batch_size ->
  Forall2 (fun inst (pn : Z * Z) =>
             answer_id slf inst = Ok pn.1 /\
             0 <= pn.2 < FrozenIdentifier_len (candidate_lexicon slf))
          w (feed_candidate_ids batch).
Proof.
  intros (_ & (ans & neg & Ha & -> & Hlen & Hneg) & _) Hw.
  apply (zip_Forall2 (fun inst id => answer_id slf inst = Ok id)
           (fun x => 0 <= x < FrozenIdentifier_len (candidate_lexicon slf)));
    [done..|].
  apply Forall2_length in Ha. lia.
Qed.

(** Every batch the generator yields was built from a full window that
    lies inside the instance list; a batch is yielded only for a positive
    batch size. *)
Lemma yielded_batch batch_size test st batches e st' (k : nat) batch :
  exhaust (create_batches batch_size test) st = (batches, e, st') ->
  batches !! k = Some batch ->
  0 < batch_size /\
  (Z.of_nat k + 1) * batch_size
    <= len (selected_instances st) - len (selected_instances st) `mod` batch_size /\
  batch_of (self st) batch_size
    (window batch_size (selected_instances st) (Z.of_nat k)) batch.
Proof.
  intros Hrun Hk. destruct (Z.eq_dec batch_size 0) as [->|HB].
  { unfold exhaust, create_batches, gi_frame, gi_batch_size in Hrun.
    rewrite loop_header_eq in Hrun. by injection Hrun as <- _ _. }
  rewrite exhaust_create_batches in Hrun by done.
  apply run_loop_batches in Hrun as [Hall _].
  destruct (Forall2_lookup_r _ _ _ _ _ Hall Hk) as (b & Hb & Hbatch).
  apply lookup_take_Some in Hb as [Hb _]. apply range_lookup in Hb as [-> Hlt].
  assert (0 <= len (selected_instances st)) as HL by (unfold len; lia).
  assert (0 < batch_size) as Hpos.
  { destruct (Z.lt_trichotomy batch_size 0) as [Hneg|[?|?]]; [|done..].
    pose proof (Z.mod_neg_bound (len (selected_instances st)) batch_size Hneg).
    pose proof (Z.div_mod (len (selected_instances st)) batch_size HB). nia. }
  split; [done|]. split; [|done]. by apply last_window_bound.
Qed.

Lemma window_bound_weaken batch_size L (k : nat) :
  0 < batch_size ->
  (Z.of_nat k + 1) * batch_size <= L - L `mod` batch_size ->
  (Z.of_nat k + 1) * batch_size <= L.
Proof. intros HB Hk. pose proof (Z.mod_pos_bound L batch_size HB). lia. Qed.

(** The elements of a yielded batch, position by position. *)
Lemma yielded_elements batch_size test st batches e st' (k j : nat) batch :
  exhaust (create_batches batch_size test) st = (batches, e, st') ->
  batches !! k = Some batch ->
  (forall id, feed_question_ids batch !! j = Some id ->
     exists inst,
       selected_instances st !! (k * Z.to_nat batch_size + j)%nat = Some inst /\
       question_id (self st) inst = Ok id) /\
  (forall pn, feed_candidate_ids batch !! j = Some pn ->
     exists inst,
       selected_instances st !! (k * Z.to_nat batch_size + j)%nat = Some inst /\
       answer_id (self st) inst = Ok pn.1 /\
       0 <= pn.2 < FrozenIdentifier_len (candidate_lexicon (self st))) /\
  (forall tv, feed_target_values batch !! j = Some tv ->
     tv = (1.0%float, 0.0%float)).
Proof.
  intros Hrun Hk.
  destruct (yielded_batch _ _ _ _ _ _ _ _ Hrun Hk) as (HB & Hwin & Hbatch).
  apply window_bound_weaken in Hwin; [|done].
  destruct (window_full _ _ _ HB Hwin) as [_ Hlen].
  pose proof (batch_of_candidates _ _ _ _ Hbatch Hlen) as Hc.
  destruct Hbatch as (Hq & _ & Htv).
  split; [|split].
  - intros id Hid.
    destruct (Forall2_lookup_r _ _ _ _ _ Hq Hid) as (inst & Hinst & Hqid).
    exists inst. split; [|done]. by eapply window_lookup.
  - intros pn Hpn.
    destruct (Forall2_lookup_r _ _ _ _ _ Hc Hpn) as (inst & Hinst & Ha & Hn).
    exists inst. split; [|done]. by eapply window_lookup.
  - intros tv Htv'. rewrite Htv in Htv'.
    by apply lookup_replicate in Htv' as [-> _].
Qed.
End Windows.

(** ** Runs that complete *)

Section Completion.
Context {RS : RandomSource}.

Lemma getitem_bound lex key id :
  FrozenIdentifier_getitem lex key = Ok id -> 0 <= id < FrozenIdentifier_len lex.
Proof.
  unfold FrozenIdentifier_getitem, FrozenIdentifier_len, len.
  destruct (list_find _ _) as [[i x]|] eqn:Hfind; [|done].
  intros [= <-]. apply list_find_Some in Hfind as (Hi%lookup_lt_Some & _). lia.
Qed.

Lemma answer_id_bound slf inst id :
  answer_id slf inst = Ok id ->
  0 <= id < FrozenIdentifier_len (candidate_lexicon slf).
Proof.
  unfold answer_id. unfold_result. destruct (answer_text inst); [|done].
  apply getitem_bound.
Qed.

Lemma known_frame st st' inst :
  same_but_random st st' -> known (self st) inst -> known (self st') inst.
Proof. by intros ->. Qed.

Lemma batch_body_total batch_size instances (k : nat) st :
  0 < batch_size ->
  (Z.of_nat k + 1) * batch_size <= len instances ->
  Forall (known (self st)) (window batch_size instances (Z.of_nat k)) ->
  exists batch st', batch_body batch_size instances (Z.of_nat k) st = (Ok batch, st').
Proof.
  intros HB Hk Hknown. rewrite batch_body_eq.
  destruct (window_full _ _ _ HB Hk) as [_ Hlen].
  destruct (mapM_total (question_id (self st))
              (window batch_size instances (Z.of_nat k))) as [qs ->].
  { eapply Forall_impl; [exact Hknown|]. by intros inst [? _]. }
  destruct (mapM_total (answer_id (self st))
              (window batch_size instances (Z.of_nat k))) as [ans ->].
  { eapply Forall_impl; [exact Hknown|]. by intros inst [_ ?]. }
  destruct (sample_total (range 0 batch_size) st) as (neg & st' & ->);
    [|by do 2 eexists].
  destruct (window batch_size instances (Z.of_nat k)) as [|inst w];
    [simpl in Hlen; lia|].
  apply Forall_cons in Hknown as [[_ [id Hid]] _].
  apply answer_id_bound in Hid. lia.
Qed.

Lemma known_window batch_size instances (k : nat) slf :
  0 < batch_size ->
  (Z.of_nat k + 1) * batch_size <= len instances - len instances `mod` batch_size ->
  Forall (known slf)
    (take (Z.to_nat (len instances - len instances `mod` batch_size)) instances) ->
  Forall (known slf) (window batch_size instances (Z.of_nat k)).
Proof.
  intros HB Hk Hknown. apply Forall_lookup. intros j inst Hj.
  pose proof (window_bound_weaken _ _ _ HB Hk) as Hk'.
  apply window_lookup in Hj as [Hj Hlt]; [|done..].
  eapply Forall_lookup_1; [exact Hknown|].
  rewrite lookup_take_lt; [exact Hj|]. nia.
Qed.

Lemma batch_of_element slf batch_size w batch (j : nat) :
  batch_of slf batch_size w batch -> length w = Z.to_nat batch_size ->
  (j < Z.to_nat batch_size)%nat ->
  exists inst, w !! j = Some inst /\ element_of slf batch j inst.
Proof.
  intros Hbatch Hlen Hj.
  pose proof (batch_of_candidates _ _ _ _ Hbatch Hlen) as Hc.
  destruct Hbatch as (Hq & _ & Htv).
  destruct (lookup_lt_is_Some_2 w j) as [inst Hinst]; [lia|].
  destruct (Forall2_lookup_l _ _ _ _ _ Hq Hinst) as (qid & Hqid & Hqok).
  destruct (Forall2_lookup_l _ _ _ _ _ Hc Hinst) as ([pos neg] & Hpn & Hpos & _).
  exists inst. split; [done|]. exists qid, pos, neg.
  repeat split; try done. rewrite Htv. by apply lookup_replicate_2.
Qed.

(** A run that ends without an exception has yielded [L // B] batches. *)
Lemma completed_run_count batch_size test st batches st' :
  0 < batch_size ->
  exhaust (create_batches batch_size test) st = (batches, None, st') ->
  len batches = len (selected_instances st) `div` batch_size.
Proof.
  intros HB. rewrite exhaust_create_batches by lia.
  intros [_ Hlen]%run_loop_batches.
  unfold len at 1. rewrite Hlen, range_length by done.
  assert (0 <= len (selected_instances st)) as HL by (unfold len; lia).
  pose proof (Z.div_pos (len (selected_instances st)) batch_size HL HB). lia.
Qed.

Lemma exhaust_complete batch_size test st :
  0 < batch_size ->
  Forall (known (self st))
    (take (Z.to_nat (len (selected_instances st)
                     - len (selected_instances st) `mod` batch_size))
          (selected_instances st)) ->
  exists batches st',
    exhaust (create_batches batch_size test) st = (batches, None, st') /\
    len batches = len (selected_instances st) `div` batch_size.
Proof.
  intros HB Hknown.
  assert (0 <= len (selected_instances st)) as HL by (unfold len; lia).
  rewrite exhaust_create_batches by lia.
  destruct (run_loop_total batch_size (selected_instances st)
              (range 0 (len (selected_instances st) `div` batch_size)) st)
    as (batches & st' & Hrun).
  - intros b st1 Hb Hst1. unfold range in Hb. apply elem_of_seqZ in Hb.
    replace b with (Z.of_nat (Z.to_nat b)) in * by lia.
    assert ((Z.of_nat (Z.to_nat b) + 1) * batch_size
            <= len (selected_instances st)
               - len (selected_instances st) `mod` batch_size) as Hwin
      by (apply last_window_bound; lia).
    apply batch_body_total; [done|by eapply window_bound_weaken|].
    eapply Forall_impl; [by apply known_window|].
    intros inst. by apply known_frame.
  - exists batches, st'. split; [done|].
    apply run_loop_batches in Hrun as [_ Hlen].
    unfold len at 1. rewrite Hlen, range_length by done.
    pose proof (Z.div_pos (len (selected_instances st)) batch_size HL HB). lia.
Qed.
End Completion.

Lemma paris_batcher_init {RS : RandomSource} :
  AtomicBatcher_init paris_data = Ok paris_batcher.
Proof. reflexivity. Qed.

Lemma no_candidates_batcher_init {RS : RandomSource} :
  AtomicBatcher_init no_candidates_data = Ok no_candidates_batcher.
Proof. reflexivity. Qed.

(** ** Batch shape *)

Section Shape.
Context {RS : RandomSource}.

(** C1, as amended.  For a positive batch size [B] and an instance list of
    length [L], whatever the lexicons hold: every batch the generator yields
    has exactly [B] elements in each of its three sequences; position [j] of
    batch [k] is built from instance number [k * B + j], which lies below
    [L - L mod B], so none of the final [L mod B] instances is emitted; and
    at most [L // B] batches are yielded.  The count is exactly [L // B]
    when the iteration ends without an exception, and it does so whenever
    the first [L - L mod B] instances have their question and first-answer
    texts in the lexicons. *)
Theorem create_batches_shape st batch_size test :
  0 < batch_size ->
  let L := len (selected_instances st) in
  let g := create_batches batch_size test in
  Forall (fun batch =>
            len (feed_question_ids batch) = batch_size /\
            len (feed_candidate_ids batch) = batch_size /\
            len (feed_target_values batch) = batch_size) (yielded g st) /\
  (forall (k j : nat) batch,
     yielded g st !! k = Some batch -> (j < Z.to_nat batch_size)%nat ->
     Z.of_nat (k * Z.to_nat batch_size + j) < L - L `mod` batch_size /\
     exists inst,
       selected_instances st !! (k * Z.to_nat batch_size + j)%nat = Some inst /\
       element_of (self st) batch j inst) /\
  len (yielded g st) <= L `div` batch_size /\
  ((exhaust g st).1.2 = None -> len (yielded g st) = L `div` batch_size) /\
  (Forall (known (self st))
     (take (Z.to_nat (L - L `mod` batch_size)) (selected_instances st)) ->
   (exhaust g st).1.2 = None /\ len (yielded g st) = L `div` batch_size).
Proof.
  intros HB. cbn zeta. unfold yielded.
  destruct (exhaust (create_batches batch_size test) st) as [[batches e] st']
    eqn:Hrun.
  simpl.
  assert (0 <= len (selected_instances st)) as HL by (unfold len; lia).
  split; [|split; [|split; [|split]]].
  - apply Forall_lookup. intros k batch Hk.
    destruct (yielded_batch _ _ _ _ _ _ _ _ Hrun Hk) as (_ & Hwin & Hbatch).
    apply window_bound_weaken in Hwin; [|done].
    destruct (window_full _ _ _ HB Hwin) as [_ Hlen].
    destruct (batch_of_shape _ _ _ _ Hbatch Hlen) as (Hq & Hc & Ht).
    unfold len. lia.
  - intros k j batch Hk Hj.
    destruct (yielded_batch _ _ _ _ _ _ _ _ Hrun Hk) as (_ & Hwin & Hbatch).
    split; [nia|].
    pose proof (window_bound_weaken _ _ _ HB Hwin) as Hwin'.
    destruct (window_full _ _ _ HB Hwin') as [_ Hlen].
    destruct (batch_of_element _ _ _ _ j Hbatch Hlen Hj) as (inst & Hinst & Hel).
    exists inst. split; [|done]. by eapply window_lookup.
  - pose proof (Z.div_pos (len (selected_instances st)) batch_size HL HB) as Hdiv.
    destruct (decide (length batches = 0%nat)) as [Hn|Hn];
      [unfold len in *; lia|].
    destruct (lookup_lt_is_Some_2 batches (pred (length batches))) as [batch Hk];
      [lia|].
    destruct (yielded_batch _ _ _ _ _ _ _ _ Hrun Hk) as (_ & Hwin & _).
    pose proof (Z.div_mod (len (selected_instances st)) batch_size) as Hdm.
    unfold len in *. nia.
  - intros ->. by eapply completed_run_count.
  - intros Hknown.
    destruct (exhaust_complete batch_size test st HB Hknown)
      as (batches' & st'' & Hrun' & Hcount).
    rewrite Hrun in Hrun'. by injection Hrun' as -> -> ->.
Qed.
End Shape.

Lemma create_batches_shape_witness :
  Forall (fun batch =>
            len (feed_question_ids batch) = 2 /\
            len (feed_candidate_ids batch) = 2 /\
            len (feed_target_values batch) = 2)
         (yielded (create_batches 2 false) (paris_store None)) /\
  (forall (k j : nat) batch,
     yielded (create_batches 2 false) (paris_store None) !! k = Some batch ->
     (j < 2)%nat ->
     Z.of_nat (k * 2 + j) < 3 - 3 `mod` 2 /\
     exists inst,
       instances paris_data !! (k * 2 + j)%nat = Some inst /\
       element_of (self (paris_store None)) batch j inst) /\
  len (yielded (create_batches 2 false) (paris_store None)) <= 3 `div` 2 /\
  ((exhaust (create_batches 2 false) (paris_store None)).1.2 = None ->
   len (yielded (create_batches 2 false) (paris_store None)) = 3 `div` 2) /\
  (Forall (known (self (paris_store None)))
     (take (Z.to_nat (3 - 3 `mod` 2)) (instances paris_data)) ->
   (exhaust (create_batches 2 false) (paris_store None)).1.2 = None /\
   len (yielded (create_batches 2 false) (paris_store None)) = 3 `div` 2).
Proof.
  apply (create_batches_shape (paris_store None) 2 false). lia.
Defined.

(** C1 as stated fails where the iteration raises.  The batcher built from
    [paris_data], given [unseen_data] with batch size 1, raises the lookup
    failure in its first batch and has yielded no batch, although
    [L // B = 1]; so does the batcher built from [no_candidates_data] on its
    own reference data. *)
Lemma create_batches_shape_counterexample :
  (exhaust (create_batches 1 false) (paris_store (Some unseen_data))
   = ([], Some (KeyError "Where is the Brandenburg Gate?"),
      paris_store (Some unseen_data))
   /\ len (selected_instances (paris_store (Some unseen_data))) `div` 1 = 1)
  /\
  (exhaust (create_batches 1 false) no_candidates_store
   = ([], Some (KeyError "Paris"), no_candidates_store)
   /\ len (selected_instances no_candidates_store) `div` 1 = 1).
Proof. repeat split; vm_compute; reflexivity. Qed.

(** ** Labels and negative samples *)

Section Labels.
Context {RS : RandomSource}.

Lemma answer_id_text slf inst id :
  answer_id slf inst = Ok id ->
  exists answer,
    answer_text inst = Ok answer /\
    FrozenIdentifier_getitem (candidate_lexicon slf) answer = Ok id.
Proof.
  unfold answer_id. unfold_result.
  destruct (answer_text inst) as [answer|]; [|done]. intros H. by exists answer.
Qed.

Lemma yielded_lookup batch_size test st (k : nat) batch :
  yielded (create_batches batch_size test) st !! k = Some batch ->
  exists batches e st',
    exhaust (create_batches batch_size test) st = (batches, e, st') /\
    batches !! k = Some batch.
Proof.
  unfold yielded.
  destruct (exhaust (create_batches batch_size test) st) as [[batches e] st'].
  intros Hk. by exists batches, e, st'.
Qed.

(** C2.  Every position [j] of every yielded batch carries the target pair
    [(1.0, 0.0)], and the first component of its candidate pair is the
    candidate lexicon's id of [inst['questions'][0]['answers'][0]['text']],
    where [inst] is the instance the position was built from (number
    [k * B + j] for batch [k]).  The batch has exactly [B] such positions. *)
Theorem label_invariant st batch_size test (k j : nat) batch :
  yielded (create_batches batch_size test) st !! k = Some batch ->
  (j < Z.to_nat batch_size)%nat ->
  len (feed_candidate_ids batch) = batch_size /\
  len (feed_target_values batch) = batch_size /\
  exists inst answer pos neg,
    selected_instances st !! (k * Z.to_nat batch_size + j)%nat = Some inst /\
    answer_text inst = Ok answer /\
    FrozenIdentifier_getitem (candidate_lexicon (self st)) answer = Ok pos /\
    feed_candidate_ids batch !! j = Some (pos, neg) /\
    feed_target_values batch !! j = Some (1.0%float, 0.0%float).
Proof.
  intros (batches & e & st' & Hrun & Hk)%yielded_lookup Hj.
  destruct (yielded_batch _ _ _ _ _ _ _ _ Hrun Hk) as (HB & Hwin & Hbatch).
  apply window_bound_weaken in Hwin; [|done].
  destruct (window_full _ _ _ HB Hwin) as [_ Hlen].
  destruct (batch_of_shape _ _ _ _ Hbatch Hlen) as (_ & Hc & Ht).
  split; [unfold len; lia|]. split; [unfold len; lia|].
  destruct (batch_of_element _ _ _ _ j Hbatch Hlen Hj)
    as (inst & Hinst & qid & pos & neg & _ & Hpn & Htv & _ & Hpos).
  apply answer_id_text in Hpos as (answer & Htext & Hid).
  exists inst, answer, pos, neg. split; [by eapply window_lookup|done].
Qed.

(** C4.  In every yielded batch the second component of every candidate
    pair, the sampled negative id, lies in [[0, num_candidates)], where
    [num_candidates] is the size of the candidate lexicon (as [__init__]
    sets it).  A yielded batch witnesses that sampling succeeded, so the
    bound needs no assumption on [num_candidates]. *)
Theorem negative_in_range st batch_size test (k j : nat) batch pos neg :
  num_candidates (self st) = FrozenIdentifier_len (candidate_lexicon (self st)) ->
  yielded (create_batches batch_size test) st !! k = Some batch ->
  feed_candidate_ids batch !! j = Some (pos, neg) ->
  0 <= neg < num_candidates (self st).
Proof.
  intros Hnum (batches & e & st' & Hrun & Hk)%yielded_lookup Hpn.
  destruct (yielded_elements _ _ _ _ _ _ k j _ Hrun Hk) as (_ & Hc & _).
  destruct (Hc _ Hpn) as (inst & _ & _ & Hneg). by rewrite Hnum.
Qed.

Lemma init_num_candidates reference_data b :
  AtomicBatcher_init reference_data = Ok b ->
  num_candidates b = FrozenIdentifier_len (candidate_lexicon b) /\
  num_questions b = FrozenIdentifier_len (question_lexicon b) /\
  random b = Random 0.
Proof.
  unfold AtomicBatcher_init. unfold_result.
  destruct (mapM question_text _); [|done]. by intros [= <-].
Qed.
End Labels.

Lemma label_invariant_witness :
  exists batch,
    yielded (create_batches 2 false) (paris_store None) !! 0%nat = Some batch /\
    len (feed_candidate_ids batch) = 2 /\
    len (feed_target_values batch) = 2 /\
    exists inst answer pos neg,
      selected_instances (paris_store None) !! 1%nat = Some inst /\
      answer_text inst = Ok answer /\
      FrozenIdentifier_getitem (candidate_lexicon (self (paris_store None))) answer
        = Ok pos /\
      feed_candidate_ids batch !! 1%nat = Some (pos, neg) /\
      feed_target_values batch !! 1%nat = Some (1.0%float, 0.0%float).
Proof.
  eexists. split; [vm_compute; reflexivity|].
  apply (label_invariant (paris_store None) 2 false 0 1).
  - vm_compute. reflexivity.
  - vm_compute. lia.
Defined.

Lemma negative_in_range_witness :
  0 <= 0 < num_candidates (self (paris_store None)).
Proof.
  apply (negative_in_range (paris_store None) 2 false 0 1
           {| feed_question_ids := [2; 1];
              feed_candidate_ids := [(1, 1); (1, 0)];
              feed_target_values := [(1.0%float, 0.0%float); (1.0%float, 0.0%float)] |}
           1 0).
  - vm_compute. reflexivity.
  - vm_compute. reflexivity.
  - reflexivity.
Defined.

(** ** Lookup failures *)

Section LookupFailure.
Context {RS : RandomSource}.

Lemma getitem_absent lex key :
  key ∉ id2key lex -> FrozenIdentifier_getitem lex key = Raise (KeyError key).
Proof.
  intros Habsent. unfold FrozenIdentifier_getitem.
  destruct (list_find _ _) as [[i x]|] eqn:Hfind; [|done].
  apply list_find_Some in Hfind as (Hx & <- & _).
  destruct Habsent. by eapply list_elem_of_lookup_2.
Qed.

Lemma getitem_Raise lex key e :
  FrozenIdentifier_getitem lex key = Raise e ->
  e = KeyError key /\ key ∉ id2key lex.
Proof.
  unfold FrozenIdentifier_getitem.
  destruct (list_find _ _) as [[i x]|] eqn:Hfind; [done|].
  intros [= <-]. split; [done|]. intros Hin.
  apply list_find_None in Hfind. eapply Forall_forall in Hfind; [|exact Hin]. done.
Qed.

Lemma getitem_present lex key :
  key ∈ id2key lex ->
  exists i : nat,
    FrozenIdentifier_getitem lex key = Ok (Z.of_nat i) /\ id2key lex !! i = Some key.
Proof.
  intros Hin. unfold FrozenIdentifier_getitem.
  destruct (list_find _ _) as [[i x]|] eqn:Hfind.
  - apply list_find_Some in Hfind as (Hx & <- & _). by exists i.
  - apply list_find_None in Hfind.
    eapply Forall_forall in Hfind; [|exact Hin]. done.
Qed.

(** The built identifier knows exactly the symbols of the set, each under
    one id. *)
Lemma build_getitem symbols key :
  key ∈ symbols <->
  exists id, FrozenIdentifier_getitem (FrozenIdentifier_build symbols) key = Ok id.
Proof.
  split.
  - intros Hin. destruct (getitem_present (FrozenIdentifier_build symbols) key)
      as (i & Hi & _); [simpl; by rewrite elem_of_elements|]. by eexists.
  - intros [id Hid]. destruct (decide (key ∈ symbols)) as [|Habsent]; [done|].
    rewrite getitem_absent in Hid; [done|]. simpl. by rewrite elem_of_elements.
Qed.

Lemma build_ids_distinct symbols : NoDup (id2key (FrozenIdentifier_build symbols)).
Proof. simpl. apply NoDup_elements. Qed.

Lemma question_id_Raise slf inst e :
  well_formed inst -> question_id slf inst = Raise e ->
  exists key, e = KeyError key /\ key ∉ id2key (question_lexicon slf).
Proof.
  intros [[q Hq] _]. unfold question_id. unfold_result. rewrite Hq.
  intros [-> Habsent]%getitem_Raise. by exists q.
Qed.

Lemma answer_id_Raise slf inst e :
  well_formed inst -> answer_id slf inst = Raise e ->
  exists key, e = KeyError key /\ key ∉ id2key (candidate_lexicon slf).
Proof.
  intros [_ [a Ha]]. unfold answer_id. unfold_result. rewrite Ha.
  intros [-> Habsent]%getitem_Raise. by exists a.
Qed.

(** The first window holds an instance with an unknown text: the loop body
    for index 0 raises a [KeyError] and leaves the store as it was. *)
Lemma batch_body_unknown batch_size instances st (i : nat) inst :
  0 < batch_size -> batch_size <= len instances ->
  Forall well_formed (take (Z.to_nat batch_size) instances) ->
  instances !! i = Some inst -> (i < Z.to_nat batch_size)%nat ->
  (exists q, question_text inst = Ok q /\ q ∉ id2key (question_lexicon (self st))) \/
  (exists a, answer_text inst = Ok a /\ a ∉ id2key (candidate_lexicon (self st))) ->
  exists key,
    (key ∉ id2key (question_lexicon (self st)) \/
     key ∉ id2key (candidate_lexicon (self st))) /\
    batch_body batch_size instances 0 st = (Raise (KeyError key), st).
Proof.
  intros HB HL Hwf Hi Hlt Hunknown.
  destruct (window_full batch_size instances 0 HB) as [Hw _]; [simpl; lia|].
  change (Z.of_nat 0) with 0 in Hw.
  change (drop (0 * Z.to_nat batch_size) instances) with instances in Hw.
  rewrite batch_body_eq, Hw. clear Hw.
  assert (take (Z.to_nat batch_size) instances !! i = Some inst) as Hin
    by by rewrite lookup_take_lt.
  destruct (mapM (question_id (self st)) _) as [qs|e] eqn:Hq.
  - apply mapM_Ok_elim in Hq.
    destruct (Forall2_lookup_l _ _ _ _ _ Hq Hin) as (qid & _ & Hqid).
    destruct Hunknown as [(q & Hq' & Habsent)|(a & Ha & Habsent)].
    { unfold question_id in Hqid. unfold_result. rewrite Hq' in Hqid.
      by rewrite getitem_absent in Hqid. }
    destruct (mapM (answer_id (self st)) _) as [ans|e] eqn:Hans.
    + apply mapM_Ok_elim in Hans.
      destruct (Forall2_lookup_l _ _ _ _ _ Hans Hin) as (aid & _ & Haid).
      unfold answer_id in Haid. unfold_result. rewrite Ha in Haid.
      by rewrite getitem_absent in Haid.
    + apply mapM_Raise_elim, Exists_exists in Hans as (x & Hx & Hraise).
      eapply Forall_forall in Hwf; [|exact Hx].
      destruct (answer_id_Raise _ _ _ Hwf Hraise) as (key & -> & Hkey).
      exists key. split; [by right|done].
  - apply mapM_Raise_elim, Exists_exists in Hq as (x & Hx & Hraise).
    eapply Forall_forall in Hwf; [|exact Hx].
    destruct (question_id_Raise _ _ _ Hwf Hraise) as (key & -> & Hkey).
    exists key. split; [by left|done].
Qed.

Lemma range_first_window batch_size L :
  0 < batch_size -> batch_size <= L ->
  range 0 (L `div` batch_size)
  = 0 :: seqZ 1 (Z.pred (L `div` batch_size)).
Proof.
  intros HB HL. unfold range. rewrite Z.sub_0_r. apply seqZ_cons.
  apply Z.div_str_pos. lia.
Qed.

(** When the loop body for index 0 raises, so do the first [next] and the
    whole iteration, and no batch has been yielded. *)
Lemma first_batch_raises batch_size test st e st' :
  0 < batch_size -> batch_size <= len (selected_instances st) ->
  batch_body batch_size (selected_instances st) 0 st = (Raise e, st') ->
  next (create_batches batch_size test) st
  = (Raised e, with_frame (create_batches batch_size test) Closed, st') /\
  exhaust (create_batches batch_size test) st = ([], Some e, st').
Proof.
  intros HB HL Hbody.
  rewrite next_create_batches, exhaust_create_batches by lia.
  rewrite range_first_window by done. simpl.
  unfold create_batches at 2. simpl. by rewrite Hbody.
Qed.

(** C7.  If one of the first [batch_size] instances (the first full window)
    has a question text absent from the question lexicon or a first-answer
    text absent from the candidate lexicon, the first [next] on the generator
    raises [KeyError] for a key that one of the lexicons does not hold; the
    exception ends the iteration, no batch is yielded and no id is put in
    the place of the missing one.  Instances are as the data model has
    them: each has a first question with a first answer. *)
Theorem unknown_symbol_raises st batch_size test (i : nat) inst :
  0 < batch_size -> batch_size <= len (selected_instances st) ->
  Forall well_formed (take (Z.to_nat batch_size) (selected_instances st)) ->
  selected_instances st !! i = Some inst -> (i < Z.to_nat batch_size)%nat ->
  (exists q, question_text inst = Ok q /\ q ∉ id2key (question_lexicon (self st))) \/
  (exists a, answer_text inst = Ok a /\ a ∉ id2key (candidate_lexicon (self st))) ->
  exists key,
    (key ∉ id2key (question_lexicon (self st)) \/
     key ∉ id2key (candidate_lexicon (self st))) /\
    next (create_batches batch_size test) st
    = (Raised (KeyError key), with_frame (create_batches batch_size test) Closed, st) /\
    exhaust (create_batches batch_size test) st = ([], Some (KeyError key), st).
Proof.
  intros HB HL Hwf Hi Hlt Hunknown.
  destruct (batch_body_unknown _ _ st _ _ HB HL Hwf Hi Hlt Hunknown)
    as (key & Hkey & Hbody).
  exists key. split; [done|]. by apply first_batch_raises.
Qed.

(** A failing lookup raises the [IndexError] of a missing first question or
    first answer, or the [KeyError] of the lexicon. *)
Lemma lookup_Raise_kind slf inst e :
  question_id slf inst = Raise e \/ answer_id slf inst = Raise e ->
  e = IndexError \/ exists key, e = KeyError key.
Proof.
  unfold question_id, answer_id, question_text, answer_text. unfold_result.
  destruct (questions inst) as [|q qs]; simpl.
  { intros [[= <-]|[= <-]]; by left. }
  destruct (answers q) as [|a ans]; simpl.
  - intros [[-> _]%getitem_Raise|[= <-]]; [right; by eexists|by left].
  - intros [[-> _]%getitem_Raise|[-> _]%getitem_Raise]; right; by eexists.
Qed.

(** With an empty candidate lexicon the loop body for index 0 never gets to
    the sampling: one of the lookups of the first window raises, and the
    store is as it was. *)
Lemma batch_body_empty_lexicon batch_size instances st :
  FrozenIdentifier_len (candidate_lexicon (self st)) = 0 ->
  0 < batch_size -> batch_size <= len instances ->
  exists e (i : nat) inst,
    instances !! i = Some inst /\ (i < Z.to_nat batch_size)%nat /\
    (question_id (self st) inst = Raise e \/ answer_id (self st) inst = Raise e) /\
    batch_body batch_size instances 0 st = (Raise e, st).
Proof.
  intros Hempty HB HL.
  destruct (window_full batch_size instances 0 HB) as [Hw Hlen]; [simpl; lia|].
  change (Z.of_nat 0) with 0 in Hw, Hlen.
  change (drop (0 * Z.to_nat batch_size) instances) with instances in Hw.
  rewrite batch_body_eq.
  destruct (mapM (question_id (self st)) _) as [qs|e] eqn:Hq.
  - destruct (mapM (answer_id (self st)) _) as [ans|e] eqn:Hans.
    + apply mapM_Ok_elim in Hans.
      destruct (window batch_size instances 0) as [|inst w];
        [simpl in Hlen; lia|].
      apply Forall2_cons_inv_l in Hans as (id & ans' & Hid & _ & _).
      apply answer_id_bound in Hid. lia.
    + apply mapM_Raise_elim, Exists_exists in Hans as (inst & Hin & Hraise).
      apply list_elem_of_lookup in Hin as [i Hi]. rewrite Hw in Hi.
      apply lookup_take_Some in Hi as [Hi Hlt].
      exists e, i, inst. repeat split; [done|done|by right].
  - apply mapM_Raise_elim, Exists_exists in Hq as (inst & Hin & Hraise).
    apply list_elem_of_lookup in Hin as [i Hi]. rewrite Hw in Hi.
    apply lookup_take_Some in Hi as [Hi Hlt].
    exists e, i, inst. repeat split; [done|done|by left].
Qed.

(** C9, as amended.  With an empty candidate lexicon, a positive batch size
    and at least [batch_size] instances, the first [next] raises and the
    iteration ends with that exception before any batch is yielded.  The
    exception is the one a lookup of the first window raises, in the
    comprehensions that precede the sampling: an [IndexError] or a
    [KeyError], and a [KeyError] for a text absent from a lexicon when the
    instances are as the data model has them.  It is never the [ValueError]
    of [randint(0, -1)]: the sampling call is not reached and the store,
    the random source included, is as it was.  That call, were it reached,
    would raise [ValueError] in every state of the source. *)
Theorem empty_lexicon_fails st batch_size test :
  FrozenIdentifier_len (candidate_lexicon (self st)) = 0 ->
  0 < batch_size -> batch_size <= len (selected_instances st) ->
  (exists e,
     next (create_batches batch_size test) st
     = (Raised e, with_frame (create_batches batch_size test) Closed, st) /\
     exhaust (create_batches batch_size test) st = ([], Some e, st) /\
     (exists (i : nat) inst,
        selected_instances st !! i = Some inst /\ (i < Z.to_nat batch_size)%nat /\
        (question_id (self st) inst = Raise e \/
         answer_id (self st) inst = Raise e)) /\
     (e = IndexError \/ exists key, e = KeyError key) /\
     e <> ValueError /\
     (Forall well_formed (take (Z.to_nat batch_size) (selected_instances st)) ->
      exists key,
        e = KeyError key /\
        (key ∉ id2key (question_lexicon (self st)) \/
         key ∉ id2key (candidate_lexicon (self st))))) /\
  forall s,
    randint 0 (FrozenIdentifier_len (candidate_lexicon (self st)) - 1) s
    = (Raise ValueError, s).
Proof.
  intros Hempty HB HL. split.
  - destruct (batch_body_empty_lexicon batch_size (selected_instances st) st
                Hempty HB HL) as (e & i & inst & Hi & Hlt & Hraise & Hbody).
    pose proof (lookup_Raise_kind _ _ _ Hraise) as Hkind.
    exists e. destruct (first_batch_raises _ test _ _ _ HB HL Hbody) as [Hnext Hrun].
    split; [done|]. split; [done|]. split; [by exists i, inst|].
    split; [done|]. split.
    { by destruct Hkind as [->|[key ->]]. }
    intros Hwf.
    assert (well_formed inst) as Hinst.
    { eapply Forall_lookup_1; [exact Hwf|]. by rewrite lookup_take_lt. }
    destruct Hraise as [Hraise|Hraise].
    + destruct (question_id_Raise _ _ _ Hinst Hraise) as (key & -> & Hkey).
      exists key. split; [done|by left].
    + destruct (answer_id_Raise _ _ _ Hinst Hraise) as (key & -> & Hkey).
      exists key. split; [done|by right].
  - intros s. rewrite Hempty. reflexivity.
Qed.
End LookupFailure.

Lemma unknown_symbol_raises_witness :
  exists key,
    (key ∉ id2key (question_lexicon (self (paris_store (Some unseen_data)))) \/
     key ∉ id2key (candidate_lexicon (self (paris_store (Some unseen_data))))) /\
    next (create_batches 1 false) (paris_store (Some unseen_data))
    = (Raised (KeyError key), with_frame (create_batches 1 false) Closed,
       paris_store (Some unseen_data)) /\
    exhaust (create_batches 1 false) (paris_store (Some unseen_data))
    = ([], Some (KeyError key), paris_store (Some unseen_data)).
Proof.
  apply (unknown_symbol_raises (paris_store (Some unseen_data)) 1 false 0
           (asks "Where is the Brandenburg Gate?" "Berlin")).
  - lia.
  - vm_compute. discriminate.
  - repeat constructor; eexists; reflexivity.
  - reflexivity.
  - vm_compute. lia.
  - left. eexists. split; [reflexivity|].
    vm_compute. intros Hin. repeat (apply elem_of_cons in Hin as [Hin|Hin]; [discriminate|]).
    by apply elem_of_nil in Hin.
Defined.

Lemma empty_lexicon_fails_witness :
  (exists e,
     next (create_batches 1 false) no_candidates_store
     = (Raised e, with_frame (create_batches 1 false) Closed, no_candidates_store) /\
     exhaust (create_batches 1 false) no_candidates_store
     = ([], Some e, no_candidates_store) /\
     (exists (i : nat) inst,
        selected_instances no_candidates_store !! i = Some inst /\
        (i < Z.to_nat 1)%nat /\
        (question_id (self no_candidates_store) inst = Raise e \/
         answer_id (self no_candidates_store) inst = Raise e)) /\
     (e = IndexError \/ exists key, e = KeyError key) /\
     e <> ValueError /\
     (Forall well_formed
        (take (Z.to_nat 1) (selected_instances no_candidates_store)) ->
      exists key,
        e = KeyError key /\
        (key ∉ id2key (question_lexicon (self no_candidates_store)) \/
         key ∉ id2key (candidate_lexicon (self no_candidates_store))))) /\
  forall s,
    randint (RS := weyl) 0
      (FrozenIdentifier_len (candidate_lexicon (self no_candidates_store)) - 1) s
    = (Raise ValueError, s).
Proof.
  apply (empty_lexicon_fails no_candidates_store 1 false).
  - vm_compute. reflexivity.
  - lia.
  - vm_compute. discriminate.
Defined.

(** C9 as stated has the sampling call [randint(0, -1)] fail.  For the
    batcher built from [no_candidates_data], on its own reference data with
    batch size 1, the first [next] raises [KeyError] for "Paris": the lookup
    of the first answer in the empty candidate lexicon, which the loop body
    runs before it samples.  The exception is not the [ValueError] that
    [randint(0, -1)] raises, and the random source is still in the state
    [Random(0)] it was constructed with: no draw was attempted. *)
Lemma empty_lexicon_fails_counterexample :
  FrozenIdentifier_len (candidate_lexicon (self no_candidates_store)) = 0 /\
  1 <= len (selected_instances no_candidates_store) /\
  next (create_batches 1 false) no_candidates_store
  = (Raised (KeyError "Paris"), with_frame (create_batches 1 false) Closed,
     no_candidates_store) /\
  answer_id (self no_candidates_store)
    (asks "Which city is the capital of France?" "Paris")
  = Raise (KeyError "Paris") /\
  KeyError "Paris" <> ValueError /\
  randint (RS := weyl) 0 (-1) (Random 0) = (Raise ValueError, Random 0) /\
  random (self (next (create_batches 1 false) no_candidates_store).2) = Random 0.
Proof.
  repeat split; try (vm_compute; reflexivity); discriminate.
Qed.

(** ** Frame: what the generator leaves alone *)

Section Frame.
Context {RS : RandomSource}.

Lemma same_but_random_unchanged st st' :
  same_but_random st st' -> unchanged_except_random st st'.
Proof. intros ->. by repeat split. Qed.

Lemma resume_frame g instances rest st ev g' st' :
  resume g instances rest st = (ev, g', st') -> same_but_random st st'.
Proof.
  unfold resume. destruct rest as [|b rest].
  - intros [= <- <- <-]. apply same_but_random_refl.
  - destruct (batch_body _ _ b st) as [[batch|e] st1] eqn:Hb;
      intros [= <- <- <-]; by eapply batch_body_frame.
Qed.

Lemma next_frame g st ev g' st' :
  next g st = (ev, g', st') -> same_but_random st st'.
Proof.
  unfold next. destruct (gi_frame g) as [|instances rest|].
  - rewrite loop_header_eq. destruct (gi_batch_size g =? 0).
    + intros [= <- <- <-]. apply same_but_random_refl.
    + apply resume_frame.
  - apply resume_frame.
  - intros [= <- <- <-]. apply same_but_random_refl.
Qed.

Lemma pull_frame n g st : same_but_random st (pull n g st).2.
Proof.
  revert g st. induction n as [|n IH]; intros g st; simpl.
  - apply same_but_random_refl.
  - destruct (next g st) as [[ev g1] st1] eqn:Hnext.
    apply next_frame in Hnext. destruct ev as [batch| |e]; [|done..].
    specialize (IH g1 st1). destruct (pull n g1 st1) as [[evs g2] st2].
    by eapply same_but_random_trans.
Qed.

Lemma exhaust_frame g st : same_but_random st (exhaust g st).2.
Proof.
  unfold exhaust. destruct (gi_frame g) as [|instances rest|].
  - rewrite loop_header_eq. destruct (gi_batch_size g =? 0).
    + apply same_but_random_refl.
    + destruct (run_loop _ _ _ st) as [[batches e] st'] eqn:Hrun.
      by eapply run_loop_frame.
  - destruct (run_loop _ _ _ st) as [[batches e] st'] eqn:Hrun.
    by eapply run_loop_frame.
  - apply same_but_random_refl.
Qed.

(** C10.  However many batches are pulled from a generator, and also when it
    is run to its end, the store afterwards has the same [reference_data],
    lexicons, placeholders, [num_candidates] and [num_questions] in the
    batcher and the same [data] as before: only [self.random] may have
    advanced. *)
Theorem create_batches_frame n g st :
  unchanged_except_random st (pull n g st).2 /\
  unchanged_except_random st (exhaust g st).2.
Proof.
  split; apply same_but_random_unchanged; [apply pull_frame|apply exhaust_frame].
Qed.
End Frame.

(** ** The [test] flag *)

Section Determinism.
Context {RS : RandomSource}.

Lemma resume_same_but_test g1 g2 instances rest st :
  same_but_test g1 g2 ->
  (resume g1 instances rest st).1.1 = (resume g2 instances rest st).1.1 /\
  (resume g1 instances rest st).2 = (resume g2 instances rest st).2 /\
  same_but_test (resume g1 instances rest st).1.2 (resume g2 instances rest st).1.2.
Proof.
  intros [HB _]. unfold resume. destruct rest as [|b rest]; [done|].
  rewrite HB. by destruct (batch_body _ _ b st) as [[batch|e] st1].
Qed.

Lemma next_same_but_test g1 g2 st :
  same_but_test g1 g2 ->
  (next g1 st).1.1 = (next g2 st).1.1 /\
  (next g1 st).2 = (next g2 st).2 /\
  same_but_test (next g1 st).1.2 (next g2 st).1.2.
Proof.
  intros Hsame. pose proof Hsame as [HB HF]. unfold next. rewrite HF, HB.
  destruct (gi_frame g2) as [|instances rest|].
  - destruct (loop_header _ st) as [[[instances rest]|e] st1]; [|done].
    by apply resume_same_but_test.
  - by apply resume_same_but_test.
  - done.
Qed.

Lemma pull_same_but_test n g1 g2 st :
  same_but_test g1 g2 ->
  (pull n g1 st).1.1 = (pull n g2 st).1.1 /\ (pull n g1 st).2 = (pull n g2 st).2.
Proof.
  revert g1 g2 st. induction n as [|n IH]; intros g1 g2 st Hsame; simpl; [done|].
  destruct (next_same_but_test g1 g2 st Hsame) as (Hev & Hst & Hg).
  destruct (next g1 st) as [[ev1 g1'] st1], (next g2 st) as [[ev2 g2'] st2].
  simpl in Hev, Hst, Hg. subst ev2 st2.
  destruct ev1 as [batch| |e]; [|done..].
  destruct (IH g1' g2' st1 Hg) as [Hevs Hst'].
  destruct (pull n g1' st1) as [[evs1 g1''] st1'],
           (pull n g2' st1) as [[evs2 g2''] st2'].
  simpl in *. by subst.
Qed.

(** C6.  With [test=True] the generator behaves exactly as with
    [test=False]: the whole runs are equal (batches, final exception and
    store), any number of [next] calls give the same events and leave the
    same store, and in either mode every yielded batch has [batch_size]
    candidate pairs, one positive and one sampled negative per instance. *)
Theorem test_flag_ignored batch_size st :
  exhaust (create_batches batch_size true) st
  = exhaust (create_batches batch_size false) st /\
  (forall n,
     (pull n (create_batches batch_size true) st).1.1
     = (pull n (create_batches batch_size false) st).1.1 /\
     (pull n (create_batches batch_size true) st).2
     = (pull n (create_batches batch_size false) st).2) /\
  (forall test (k : nat) batch,
     yielded (create_batches batch_size test) st !! k = Some batch ->
     len (feed_candidate_ids batch) = batch_size).
Proof.
  split; [done|]. split.
  - intros n. by apply pull_same_but_test.
  - intros test k batch (batches & e & st' & Hrun & Hk)%yielded_lookup.
    destruct (yielded_batch _ _ _ _ _ _ _ _ Hrun Hk) as (HB & Hwin & Hbatch).
    apply window_bound_weaken in Hwin; [|done].
    destruct (window_full _ _ _ HB Hwin) as [_ Hlen].
    destruct (batch_of_shape _ _ _ _ Hbatch Hlen) as (_ & Hc & _).
    unfold len. lia.
Qed.
End Determinism.

(** ** The end-to-end scenario *)

Section Scenario.
Context {RS : RandomSource}.

Lemma sample_two st :
  0 < FrozenIdentifier_len (candidate_lexicon (self st)) ->
  mapM (M := M) (fun _ => sample_negative) (range 0 2) st =
  let n := FrozenIdentifier_len (candidate_lexicon (self st)) in
  let r1 := randbelow n (random (self st)) in
  let r2 := randbelow n r1.2 in
  (Ok [r1.1; r2.1], set_random r2.2 st).
Proof.
  intros Hn%Z.ltb_lt. change (range 0 2) with [0; 1]. simpl. unfold_M.
  rewrite sample_negative_eq. cbn zeta. rewrite Hn.
  rewrite sample_negative_eq. cbn zeta.
  change (candidate_lexicon (self (set_random _ st))) with (candidate_lexicon (self st)).
  by rewrite Hn.
Qed.

(** C3.  For [paris_data] (global candidates "Paris" and "Berlin", three
    instances with distinct questions, each answered by "Paris"), the batcher
    built from it yields with [batch_size=2] exactly one batch, of two
    elements, and ends normally, whether the data is passed explicitly or
    left to default to the reference data.  Slot 0 of both candidate pairs is
    the candidate lexicon's id of "Paris", both target pairs are
    [(1.0, 0.0)], and the two question ids are those of the first two
    instances; the third instance's question id is a different one. *)
Theorem paris_scenario :
  exists paris q1 q2 q3 n1 n2 s,
    AtomicBatcher_init paris_data = Ok paris_batcher /\
    FrozenIdentifier_getitem (candidate_lexicon paris_batcher) "Paris" = Ok paris /\
    question_id paris_batcher <$> instances paris_data = [Ok q1; Ok q2; Ok q3] /\
    q3 <> q1 /\ q3 <> q2 /\
    forall data, data = None \/ data = Some paris_data ->
      exhaust (create_batches 2 false) {| self := paris_batcher; data := data |}
      = ([ {| feed_question_ids := [q1; q2];
              feed_candidate_ids := [(paris, n1); (paris, n2)];
              feed_target_values :=
                [(1.0%float, 0.0%float); (1.0%float, 0.0%float)] |} ],
         None,
         set_random s {| self := paris_batcher; data := data |}).
Proof.
  exists 1, 2, 1, 0.
  exists (randbelow 2 (Random 0)).1, (randbelow 2 (randbelow 2 (Random 0)).2).1,
    (randbelow 2 (randbelow 2 (Random 0)).2).2.
  split; [reflexivity|]. split; [reflexivity|]. split; [reflexivity|].
  split; [done|]. split; [done|]. intros data Hdata.
  rewrite exhaust_create_batches by done.
  assert (selected_instances {| self := paris_batcher; data := data |}
          = instances paris_data) as -> by by destruct Hdata as [-> | ->].
  change (range 0 _) with [0]. cbn [run_loop]. rewrite batch_body_eq.
  change (mapM (question_id _) _) with (Ok (A := list Z) [2; 1]).
  change (mapM (answer_id _) _) with (Ok (A := list Z) [1; 1]).
  rewrite sample_two by reflexivity. reflexivity.
Qed.
End Scenario.

(** ** The dot-product scorer *)

Section ScorerProperties.
Context {R : Type} (zero : R) (add mul : R -> R -> R).

Lemma mapM_pure {A B} (f : A -> result B) (g : A -> B) l :
  (forall x, f x = Ok (g x)) -> mapM f l = Ok (g <$> l).
Proof.
  intros Hf. induction l as [|x l IH]; simpl; [done|].
  unfold_result. by rewrite Hf, IH.
Qed.

Lemma mapM_Forall_pure {A B} (f : A -> result B) (g : A -> B) l :
  Forall (fun x => f x = Ok (g x)) l -> mapM f l = Ok (g <$> l).
Proof.
  induction 1 as [|x l Hx _ IH]; simpl; [done|].
  unfold_result. by rewrite Hx, IH.
Qed.

Lemma broadcast_singleton {A B C} (f : A -> B -> result C) x ys :
  broadcast f [x] ys = mapM (f x) ys.
Proof. reflexivity. Qed.

Lemma broadcast_same_length {A B C} (f : A -> B -> result C) xs ys :
  length xs = length ys ->
  broadcast f xs ys = mapM (fun xy => f xy.1 xy.2) (zip xs ys).
Proof.
  intros Hlen. unfold broadcast.
  destruct xs as [|x [|x' xs]], ys as [|y [|y' ys]]; try done;
    by rewrite decide_True.
Qed.

Lemma zip_fmap_zip_with {A B C} (f : A -> B -> C) (xs : list A) (ys : list B) :
  (fun xy => f xy.1 xy.2) <$> zip xs ys = zip_with f xs ys.
Proof.
  revert ys. induction xs as [|x xs IH]; intros [|y ys]; simpl; [done..|].
  by rewrite IH.
Qed.

(** Two vectors of one length. *)
Lemma multiply_vectors (q v : list R) :
  length v = length q ->
  broadcast (fun a b => Ok (mul a b)) q v = Ok (zip_with mul q v).
Proof.
  intros Hlen. rewrite broadcast_same_length by done.
  rewrite (mapM_pure _ (fun xy => mul xy.1 xy.2)) by done.
  by rewrite zip_fmap_zip_with.
Qed.

(** The question vector, stretched along the candidate axis. *)
Lemma multiply_plane (q : list R) (cs : list (list R)) :
  Forall (fun v => length v = length q) cs ->
  broadcast (broadcast (fun a b => Ok (mul a b))) [q] cs
  = Ok ((fun v => zip_with mul q v) <$> cs).
Proof.
  intros Hcs. rewrite broadcast_singleton. apply mapM_Forall_pure.
  eapply Forall_impl; [exact Hcs|]. intros v. apply multiply_vectors.
Qed.

Lemma multiply3_expand (Q : list (list R)) (C : list (list (list R))) :
  Forall2 (fun q cs => Forall (fun v => length v = length q) cs) Q C ->
  multiply3 mul (expand_dims_1 Q) C
  = Ok (zip_with (fun q cs => (fun v => zip_with mul q v) <$> cs) Q C).
Proof.
  intros HQC. unfold multiply3, expand_dims_1.
  rewrite broadcast_same_length
    by (rewrite length_fmap; by eapply Forall2_length).
  apply mapM_Ok_intro.
  induction HQC as [|q cs Q C Hq _ IH]; simpl; constructor; [|exact IH].
  exact (multiply_plane q cs Hq).
Qed.

(** C8.  For question encodings of shape [[batch_size, enc_dim]] and
    candidate encodings of shape [[batch_size, num_candidates, enc_dim]] the
    scorer returns a tensor of shape [[batch_size, num_candidates]] whose
    entry [b][c] is the inner product of the question vector [b] with the
    candidate vector [b][c]: the products are summed over the encoding axis
    and nothing else is applied to them. *)
Theorem dot_product_scorer (Q : list (list R)) (C : list (list (list R)))
    (batch_size num_candidates enc_dim : nat) :
  length Q = batch_size ->
  Forall (fun q => length q = enc_dim) Q ->
  length C = batch_size ->
  Forall (fun cs => length cs = num_candidates /\
                    Forall (fun v => length v = enc_dim) cs) C ->
  exists S,
    create_dot_product_scorer zero add mul Q C = Ok S /\
    length S = batch_size /\
    Forall (fun row => length row = num_candidates) S /\
    forall (b c : nat) q cs v,
      Q !! b = Some q -> C !! b = Some cs -> cs !! c = Some v ->
      exists row,
        S !! b = Some row /\
        row !! c = Some (inner_product zero add mul q v).
Proof.
  intros HQ HQd HC HCd.
  assert (Forall2 (fun q cs => Forall (fun v => length v = length q) cs) Q C) as HQC.
  { apply Forall2_same_length_lookup_2; [congruence|].
    intros b q cs Hq Hcs.
    eapply Forall_lookup_1 in HQd; [|exact Hq].
    eapply Forall_lookup_1 in HCd as [_ Hv]; [|exact Hcs].
    eapply Forall_impl; [exact Hv|]. intros v. simpl. congruence. }
  unfold create_dot_product_scorer. rewrite (multiply3_expand _ _ HQC).
  eexists. split; [reflexivity|].
  unfold reduce_sum_2. split; [|split].
  - rewrite length_fmap, length_zip_with. lia.
  - apply Forall_lookup. intros b row.
    rewrite list_lookup_fmap, lookup_zip_with.
    destruct (Q !! b) as [q|]; [|done]. simpl.
    destruct (C !! b) as [cs|] eqn:Hcs; [|done]. simpl. intros [= <-].
    rewrite !length_fmap.
    by eapply Forall_lookup_1 in HCd as [Hn _]; [|exact Hcs].
  - intros b c q cs v Hq Hcs Hv. eexists. split.
    + rewrite list_lookup_fmap, lookup_zip_with, Hq. simpl. rewrite Hcs. reflexivity.
    + rewrite !list_lookup_fmap, Hv. reflexivity.
Qed.
End ScorerProperties.

Lemma dot_product_scorer_witness :
  exists S,
    create_dot_product_scorer 0 Z.add Z.mul
      [[1; 2]; [3; 4]]
      [[[1; 0]; [0; 1]; [1; 1]]; [[2; 2]; [1; 0]; [0; 0]]] = Ok S /\
    length S = 2%nat /\
    Forall (fun row => length row = 3%nat) S /\
    forall (b c : nat) q cs v,
      [[1; 2]; [3; 4]] !! b = Some q ->
      [[[1; 0]; [0; 1]; [1; 1]]; [[2; 2]; [1; 0]; [0; 0]]] !! b = Some cs ->
      cs !! c = Some v ->
      exists row,
        S !! b = Some row /\
        row !! c = Some (inner_product 0 Z.add Z.mul q v).
Proof.
  apply (dot_product_scorer 0 Z.add Z.mul
           [[1; 2]; [3; 4]]
           [[[1; 0]; [0; 1]; [1; 1]]; [[2; 2]; [1; 0]; [0; 0]]] 2 3 2).
  - reflexivity.
  - repeat constructor.
  - reflexivity.
  - repeat constructor.
Defined.

Example dot_product_scorer_values :
  create_dot_product_scorer 0 Z.add Z.mul
    [[1; 2]; [3; 4]]
    [[[1; 0]; [0; 1]; [1; 1]]; [[2; 2]; [1; 0]; [0; 0]]]
  = Ok [[1; 2; 3]; [14; 3; 0]].
Proof. reflexivity. Qed.

(** * Construction of the batcher *)

Section Construction.
Context {RS : RandomSource}.

Lemma question_text_Ok inst q :
  question_text inst = Ok q -> questions inst <> [].
Proof. unfold question_text. by destruct (questions inst). Qed.

Lemma question_text_Raise inst e :
  question_text inst = Raise e -> e = IndexError /\ questions inst = [].
Proof.
  unfold question_text. destruct (questions inst); [|done]. by intros [= <-].
Qed.

Lemma question_text_total inst :
  questions inst <> [] -> exists q, question_text inst = Ok q.
Proof. unfold question_text. destruct (questions inst); [done|]. by eexists. Qed.

Lemma init_fields ref b :
  AtomicBatcher_init ref = Ok b ->
  exists texts,
    mapM question_text (instances ref) = Ok texts /\
    question_lexicon b = FrozenIdentifier_build (list_to_set texts) /\
    candidate_lexicon b
    = FrozenIdentifier_build (list_to_set (text <$> candidates (globals ref))) /\
    reference_data b = ref.
Proof.
  unfold AtomicBatcher_init. unfold_result.
  destruct (mapM question_text _) as [texts|] eqn:Htexts; [|done].
  intros [= <-]. by exists texts.
Qed.

Lemma getitem_build symbols key :
  key ∈ symbols ->
  exists id,
    FrozenIdentifier_getitem (FrozenIdentifier_build symbols) key = Ok id /\
    0 <= id < FrozenIdentifier_len (FrozenIdentifier_build symbols).
Proof.
  intros Hin.
  destruct (getitem_present (FrozenIdentifier_build symbols) key)
    as (i & Hi & _); [simpl; by rewrite elem_of_elements|].
  exists (Z.of_nat i). split; [done|]. by eapply getitem_bound.
Qed.

Lemma init_question_id reference_data b inst :
  AtomicBatcher_init reference_data = Ok b ->
  inst ∈ instances reference_data ->
  exists id, question_id b inst = Ok id /\ 0 <= id < num_questions b.
Proof.
  intros Hinit Hinst. unfold question_id.
  destruct (init_num_candidates _ _ Hinit) as (_ & -> & _).
  destruct (init_fields _ _ Hinit) as (texts & Htexts & -> & _).
  apply mapM_Ok_elim in Htexts.
  apply list_elem_of_lookup in Hinst as [i Hi].
  destruct (Forall2_lookup_l _ _ _ _ _ Htexts Hi) as (q & Hq & Htext).
  unfold_result. rewrite Htext. simpl.
  apply getitem_build. apply elem_of_list_to_set. by eapply list_elem_of_lookup_2.
Qed.

Lemma init_answer_id reference_data b inst a :
  AtomicBatcher_init reference_data = Ok b ->
  answer_text inst = Ok a ->
  a ∈ text <$> candidates (globals reference_data) ->
  exists id, answer_id b inst = Ok id /\ 0 <= id < num_candidates b.
Proof.
  intros Hinit Ha Hin. unfold answer_id.
  destruct (init_num_candidates _ _ Hinit) as (-> & _ & _).
  destruct (init_fields _ _ Hinit) as (texts & _ & _ & -> & _).
  unfold_result. rewrite Ha. simpl.
  apply getitem_build. by apply elem_of_list_to_set.
Qed.

Lemma init_Ok_questions reference_data b :
  AtomicBatcher_init reference_data = Ok b ->
  Forall (fun inst => questions inst <> []) (instances reference_data).
Proof.
  intros Hinit. destruct (init_fields _ _ Hinit) as (texts & Htexts & _).
  apply mapM_Ok_elim in Htexts. apply Forall_lookup. intros i inst Hi.
  destruct (Forall2_lookup_l _ _ _ _ _ Htexts Hi) as (q & _ & Hq).
  by eapply question_text_Ok.
Qed.

Lemma init_total reference_data :
  Forall (fun inst => questions inst <> []) (instances reference_data) ->
  exists b, AtomicBatcher_init reference_data = Ok b.
Proof.
  intros Hall.
  destruct (mapM_total question_text (instances reference_data)) as [texts Htexts].
  { eapply Forall_impl; [exact Hall|]. intros inst. apply question_text_total. }
  eexists. unfold AtomicBatcher_init. unfold_result. by rewrite Htexts.
Qed.

Lemma init_Raise reference_data e :
  AtomicBatcher_init reference_data = Raise e ->
  e = IndexError /\
  Exists (fun inst => questions inst = []) (instances reference_data).
Proof.
  unfold AtomicBatcher_init. unfold_result.
  destruct (mapM question_text _) as [texts|e'] eqn:Htexts; [done|].
  intros [= <-]. apply mapM_Raise_elim in Htexts.
  apply Exists_exists in Htexts as (inst & Hin & Hraise).
  apply question_text_Raise in Hraise as [-> Hempty].
  split; [done|]. apply Exists_exists. by exists inst.
Qed.

(** X1.  Construction succeeds exactly when every reference instance has a
    first question; answers are not looked at.  When it fails, it fails
    with the [IndexError] of the subscript [inst['questions'][0]] on an
    instance whose question list is empty. *)
Theorem init_succeeds_iff reference_data :
  ((exists b, AtomicBatcher_init reference_data = Ok b) <->
   Forall (fun inst => questions inst <> []) (instances reference_data)) /\
  (forall e, AtomicBatcher_init reference_data = Raise e ->
     e = IndexError /\
     Exists (fun inst => questions inst = []) (instances reference_data)).
Proof.
  split; [split|].
  - intros [b Hinit]. by eapply init_Ok_questions.
  - apply init_total.
  - apply init_Raise.
Qed.

(** X2.  After construction every question of the reference data has an id
    in [[0, num_questions)]: a question lookup on a reference instance
    cannot fail. *)
Theorem init_questions_known reference_data b :
  AtomicBatcher_init reference_data = Ok b ->
  Forall (fun inst => exists id, question_id b inst = Ok id /\
                                 0 <= id < num_questions b)
         (instances reference_data).
Proof.
  intros Hinit. apply Forall_forall. intros inst Hinst.
  by eapply init_question_id.
Qed.

(** X3.  After construction every global candidate text has an id in
    [[0, num_candidates)]; [num_candidates] counts the distinct candidate
    texts, so it is at most the length of [globals.candidates] and equals it
    when no text is repeated. *)
Theorem init_candidates_known reference_data b :
  AtomicBatcher_init reference_data = Ok b ->
  Forall (fun c => exists id,
            FrozenIdentifier_getitem (candidate_lexicon b) (text c) = Ok id /\
            0 <= id < num_candidates b)
         (candidates (globals reference_data)) /\
  num_candidates b <= len (candidates (globals reference_data)) /\
  (NoDup (text <$> candidates (globals reference_data)) ->
   num_candidates b = len (candidates (globals reference_data))).
Proof.
  intros Hinit.
  destruct (init_num_candidates _ _ Hinit) as (-> & _ & _).
  destruct (init_fields _ _ Hinit) as (texts & _ & _ & -> & _).
  split; [|split].
  - apply Forall_forall. intros c Hc. apply getitem_build.
    apply elem_of_list_to_set. by apply list_elem_of_fmap_2.
  - unfold FrozenIdentifier_len, len. simpl.
    rewrite <- (length_fmap text (candidates (globals reference_data))).
    apply inj_le, submseteq_length, NoDup_submseteq; [apply NoDup_elements|].
    intros x. by rewrite elem_of_elements, elem_of_list_to_set.
  - intros Hnodup. unfold FrozenIdentifier_len, len. simpl.
    rewrite <- (length_fmap text (candidates (globals reference_data))).
    f_equal. by apply (size_list_to_set (C := gset string)).
Qed.

(** X4.  The batcher run on its own reference data ([data=None]) with a
    positive batch size ends without an exception after [L // B] batches
    whenever every instance's first answer text is one of the global
    candidate texts. *)
Theorem reference_run_completes reference_data b batch_size test :
  AtomicBatcher_init reference_data = Ok b ->
  0 < batch_size ->
  Forall (fun inst => exists a,
            answer_text inst = Ok a /\
            a ∈ text <$> candidates (globals reference_data))
         (instances reference_data) ->
  exists batches st',
    exhaust (create_batches batch_size test) {| self := b; data := None |}
    = (batches, None, st') /\
    len batches = len (instances reference_data) `div` batch_size.
Proof.
  intros Hinit HB Hanswers.
  destruct (init_fields _ _ Hinit) as (_ & _ & _ & _ & Href).
  assert (selected_instances {| self := b; data := None |}
          = instances reference_data) as Hsel
    by (unfold selected_instances; simpl; by rewrite Href).
  rewrite <- Hsel. apply exhaust_complete; [done|]. rewrite Hsel.
  apply Forall_take, Forall_forall. intros inst Hinst. simpl.
  eapply Forall_forall in Hanswers as (a & Ha & Hin); [|exact Hinst].
  destruct (init_question_id _ _ _ Hinit Hinst) as (qid & Hqid & _).
  destruct (init_answer_id _ _ _ _ Hinit Ha Hin) as (aid & Haid & _).
  split; by eexists.
Qed.
End Construction.

Lemma init_questions_known_witness :
  Forall (fun inst => exists id, question_id (paris_batcher (RS := weyl)) inst = Ok id /\
                                 0 <= id < num_questions (paris_batcher (RS := weyl)))
         (instances paris_data).
Proof. apply (init_questions_known (RS := weyl) paris_data paris_batcher). reflexivity. Defined.

Lemma init_candidates_known_witness :
  Forall (fun c => exists id,
            FrozenIdentifier_getitem (candidate_lexicon (paris_batcher (RS := weyl)))
              (text c) = Ok id /\
            0 <= id < num_candidates (paris_batcher (RS := weyl)))
         (candidates (globals paris_data)) /\
  num_candidates (paris_batcher (RS := weyl)) <= len (candidates (globals paris_data)) /\
  (NoDup (text <$> candidates (globals paris_data)) ->
   num_candidates (paris_batcher (RS := weyl)) = len (candidates (globals paris_data))).
Proof. apply (init_candidates_known (RS := weyl) paris_data paris_batcher). reflexivity. Defined.

Lemma reference_run_completes_witness :
  exists batches st',
    exhaust (create_batches 2 false) (paris_store None) = (batches, None, st') /\
    len batches = len (instances paris_data) `div` 2.
Proof.
  apply (reference_run_completes (RS := weyl) paris_data paris_batcher 2 false).
  - reflexivity.
  - lia.
  - repeat constructor; eexists; (split; [reflexivity|]);
      apply list_elem_of_fmap; eexists; (split; [reflexivity|]); by left.
Defined.

(** * The generator protocol *)

Section Protocol.
Context {RS : RandomSource}.

Lemma sample_Raise {A} (l : list A) st e st' :
  mapM (M := M) (fun _ => sample_negative) l st = (Raise e, st') ->
  st' = st /\ e = ValueError /\
  FrozenIdentifier_len (candidate_lexicon (self st)) <= 0.
Proof.
  intros Hraise.
  destruct (Z.lt_ge_cases 0 (FrozenIdentifier_len (candidate_lexicon (self st))))
    as [Hpos|Hle].
  { destruct (sample_total l st Hpos) as (negs & st1 & Hok). congruence. }
  destruct l as [|x l]; [done|].
  rewrite sample_empty_lexicon in Hraise by done. by injection Hraise as <- <-.
Qed.

Lemma batch_body_Raise batch_size instances b st e st' :
  batch_body batch_size instances b st = (Raise e, st') -> st' = st.
Proof.
  rewrite batch_body_eq.
  destruct (mapM (question_id _) _); [|by intros [= _ <-]].
  destruct (mapM (answer_id _) _); [|by intros [= _ <-]].
  destruct (mapM (M := M) _ (range 0 batch_size) st) as [[neg|e'] st1] eqn:Hs;
    [done|].
  intros [= <- <-]. by apply sample_Raise in Hs as [-> _].
Qed.

Lemma resume_not_yield g instances rest st ev g' st' :
  resume g instances rest st = (ev, g', st') -> ~ is_yield ev ->
  st' = st /\ gi_frame g' = Closed.
Proof.
  unfold resume. destruct rest as [|b rest]; [by intros [= <- <- <-]|].
  destruct (batch_body _ _ b st) as [[batch|e] st1] eqn:Hb; intros [= <- <- <-].
  - by intros [].
  - intros _. split; [|done]. by eapply batch_body_Raise.
Qed.

Lemma next_not_yield g st ev g' st' :
  next g st = (ev, g', st') -> ~ is_yield ev ->
  st' = st /\ gi_frame g' = Closed.
Proof.
  unfold next. destruct (gi_frame g) as [|instances rest|] eqn:Hframe.
  - rewrite loop_header_eq. destruct (gi_batch_size g =? 0).
    + by intros [= <- <- <-].
    + apply resume_not_yield.
  - apply resume_not_yield.
  - by intros [= <- <- <-].
Qed.

Lemma next_closed g st : gi_frame g = Closed -> next g st = (StopIteration, g, st).
Proof. unfold next. by intros ->. Qed.

Lemma pull_closed n g st :
  gi_frame g = Closed -> pull (S n) g st = ([StopIteration], g, st).
Proof. intros Hclosed. simpl. by rewrite next_closed. Qed.

(** X5.  A [next] that does not yield (it raised, or the batches are used
    up) has left the store exactly as it was, random source included, and
    has closed the generator: every later [next], in any store, gives
    [StopIteration] and changes nothing. *)
Theorem next_without_yield g st ev g' st' :
  next g st = (ev, g', st') -> ~ is_yield ev ->
  st' = st /\
  forall st2 n, next g' st2 = (StopIteration, g', st2) /\
                pull (S n) g' st2 = ([StopIteration], g', st2).
Proof.
  intros Hnext Hev. destruct (next_not_yield _ _ _ _ _ Hnext Hev) as [-> Hclosed].
  split; [done|]. intros st2 n. split; [by apply next_closed|by apply pull_closed].
Qed.

Lemma yielded_next g st :
  yielded g st =
  match next g st with
  | (Yield batch, g', st') => batch :: yielded g' st'
  | _ => []
  end.
Proof.
  unfold yielded. rewrite exhaust_next.
  destruct (next g st) as [[[batch| |e] g'] st']; [|done..].
  by destruct (exhaust g' st') as [[batches e] st''].
Qed.

Lemma pull_yields n g st : yields (pull n g st).1.1 = take n (yielded g st).
Proof.
  revert g st. induction n as [|n IH]; intros g st; [done|].
  rewrite yielded_next. simpl.
  destruct (next g st) as [[[batch| |e] g'] st']; [|done..].
  specialize (IH g' st'). destruct (pull n g' st') as [[evs g''] st''].
  simpl in *. by rewrite IH.
Qed.

Lemma exhaust_after_yield g st batch g' st' :
  next g st = (Yield batch, g', st') ->
  yielded g st = batch :: yielded g' st' /\
  (exhaust g st).1.2 = (exhaust g' st').1.2 /\
  (exhaust g st).2 = (exhaust g' st').2.
Proof.
  intros Hnext. unfold yielded. rewrite (exhaust_next g st), Hnext.
  by destruct (exhaust g' st') as [[batches e] st''].
Qed.

Lemma exhaust_without_yield g st ev g' st' :
  next g st = (ev, g', st') -> ~ is_yield ev ->
  yielded g st = [] /\ terminal (exhaust g st).1.2 = ev /\ (exhaust g st).2 = st'.
Proof.
  intros Hnext Hev. unfold yielded. rewrite (exhaust_next g st), Hnext.
  destruct ev as [batch| |e]; [by destruct Hev|done..].
Qed.

(** All events of [n] calls of [next], and the store they leave, in terms
    of the whole run. *)
Lemma pull_exhaust n g st :
  ((n <= length (yielded g st))%nat ->
   (pull n g st).1.1 = Yield <$> take n (yielded g st)) /\
  ((length (yielded g st) < n)%nat ->
   (pull n g st).1.1 = (Yield <$> yielded g st) ++ [terminal (exhaust g st).1.2] /\
   (pull n g st).2 = (exhaust g st).2).
Proof.
  revert g st. induction n as [|n IH]; intros g st.
  { split; [done|lia]. }
  simpl. destruct (next g st) as [[ev g'] st'] eqn:Hnext.
  destruct ev as [batch| |e].
  - destruct (exhaust_after_yield _ _ _ _ _ Hnext) as (-> & -> & ->).
    destruct (IH g' st') as [IH1 IH2].
    destruct (pull n g' st') as [[evs g''] st2]. simpl in *. split.
    + intros Hn. rewrite IH1 by lia. done.
    + intros Hn. destruct IH2 as [-> ->]; [lia|]. done.
  - destruct (exhaust_without_yield _ _ _ _ _ Hnext) as (-> & -> & ->); [by intros []|].
    simpl. split; [lia|done].
  - destruct (exhaust_without_yield _ _ _ _ _ Hnext) as (-> & -> & ->); [by intros []|].
    simpl. split; [lia|done].
Qed.

Lemma next_after_pull n g st :
  (n <= length (yielded g st))%nat ->
  (next (pull n g st).1.2 (pull n g st).2).1.1
  = match yielded g st !! n with
    | Some batch => Yield batch
    | None => terminal (exhaust g st).1.2
    end.
Proof.
  revert g st. induction n as [|n IH]; intros g st Hn.
  - simpl. destruct (next g st) as [[ev g'] st'] eqn:Hnext.
    destruct ev as [batch| |e].
    + by destruct (exhaust_after_yield _ _ _ _ _ Hnext) as (-> & _).
    + by destruct (exhaust_without_yield _ _ _ _ _ Hnext) as (-> & -> & _);
        [by intros []|].
    + by destruct (exhaust_without_yield _ _ _ _ _ Hnext) as (-> & -> & _);
        [by intros []|].
  - simpl. destruct (next g st) as [[ev g'] st'] eqn:Hnext.
    destruct ev as [batch| |e].
    + destruct (exhaust_after_yield _ _ _ _ _ Hnext) as (Hy & He & _).
      rewrite Hy in Hn |- *. rewrite He. simpl in Hn |- *.
      specialize (IH g' st'). destruct (pull n g' st') as [[evs g''] st2].
      simpl in *. apply IH. lia.
    + destruct (exhaust_without_yield _ _ _ _ _ Hnext) as (Hy & _); [by intros []|].
      rewrite Hy in Hn. simpl in Hn. lia.
    + destruct (exhaust_without_yield _ _ _ _ _ Hnext) as (Hy & _); [by intros []|].
      rewrite Hy in Hn. simpl in Hn. lia.
Qed.

(** X6.  [n] calls of [next] give the first [n] batches of the whole run, as
    [Yield] events; when the run has fewer than [n] batches they give all of
    them followed by the one event that ended the run ([StopIteration] or the
    exception), and then the store is the one the whole run leaves. *)
Theorem pull_events n g st :
  yields (pull n g st).1.1 = take n (yielded g st) /\
  ((n <= length (yielded g st))%nat ->
   (pull n g st).1.1 = Yield <$> take n (yielded g st)) /\
  ((length (yielded g st) < n)%nat ->
   (pull n g st).1.1 = (Yield <$> yielded g st) ++ [terminal (exhaust g st).1.2] /\
   (pull n g st).2 = (exhaust g st).2).
Proof. split; [apply pull_yields|apply pull_exhaust]. Qed.

Lemma pull_closes n g st :
  (length (yielded g st) < n)%nat -> gi_frame (pull n g st).1.2 = Closed.
Proof.
  revert g st. induction n as [|n IH]; intros g st Hn; [lia|].
  simpl. destruct (next g st) as [[ev g'] st'] eqn:Hnext.
  destruct ev as [batch| |e].
  - destruct (exhaust_after_yield _ _ _ _ _ Hnext) as (Hy & _).
    rewrite Hy in Hn. simpl in Hn.
    specialize (IH g' st'). destruct (pull n g' st') as [[evs g''] st2].
    simpl in *. apply IH. lia.
  - by apply next_not_yield in Hnext as [_ ?]; [|by intros []].
  - by apply next_not_yield in Hnext as [_ ?]; [|by intros []].
Qed.

(** X7.  After [n] calls of [next] (as [itertools.islice] makes two in
    [main]), one more call yields batch number [n] of the whole run when
    there is one.  When the run has exactly [n] batches the call gives the
    event that ended the run, and when it has fewer the generator is closed
    already: in both cases of a run without exception [StopIteration]
    reaches the caller. *)
Theorem next_after_islice n g st :
  (next (pull n g st).1.2 (pull n g st).2).1.1
  = match yielded g st !! n with
    | Some batch => Yield batch
    | None =>
        if decide (n = length (yielded g st))
        then terminal (exhaust g st).1.2
        else StopIteration
    end.
Proof.
  destruct (decide (n <= length (yielded g st))%nat) as [Hle|Hgt].
  - rewrite next_after_pull by done.
    destruct (yielded g st !! n) as [batch|] eqn:Hn; [done|].
    apply lookup_ge_None in Hn. rewrite decide_True by lia. done.
  - rewrite next_closed by (apply pull_closes; lia).
    rewrite lookup_ge_None_2 by lia. rewrite decide_False by lia. done.
Qed.
End Protocol.

(** * Batch sizes, ids and the random source *)

Section Sampling.
Context {RS : RandomSource}.

Lemma run_loop_nil batch_size instances st :
  run_loop batch_size instances [] st = ([], None, st).
Proof. reflexivity. Qed.

Lemma range_empty hi : hi <= 0 -> range 0 hi = [].
Proof. intros Hhi. unfold range. apply seqZ_nil. lia. Qed.

Lemma exhaust_degenerate st batch_size test :
  batch_size <= 0 \/ len (selected_instances st) < batch_size ->
  exhaust (create_batches batch_size test) st
  = ([], if decide (batch_size = 0) then Some ZeroDivisionError else None, st) /\
  (next (create_batches batch_size test) st).1.1
  = (if decide (batch_size = 0) then Raised ZeroDivisionError else StopIteration).
Proof.
  intros Hsize. destruct (decide (batch_size = 0)) as [->|HB].
  { split; unfold exhaust, next, create_batches, gi_frame, gi_batch_size;
      by rewrite loop_header_eq. }
  assert (0 <= len (selected_instances st)) as HL by (unfold len; lia).
  assert (len (selected_instances st) `div` batch_size <= 0) as Hdiv.
  { destruct Hsize as [Hneg|Hfew].
    - assert (batch_size < 0) as Hneg' by lia.
      pose proof (Z.mod_neg_bound (len (selected_instances st)) batch_size Hneg').
      pose proof (Z.div_mod (len (selected_instances st)) batch_size HB). nia.
    - rewrite Z.div_small by lia. done. }
  rewrite exhaust_create_batches, next_create_batches by done.
  by rewrite range_empty.
Qed.

(** X8.  With fewer instances than [batch_size], or with a negative
    [batch_size], the generator yields no batch and ends normally, without
    an error and without touching the store; with [batch_size = 0] the
    first [next] raises [ZeroDivisionError]. *)
Theorem degenerate_batch_size st batch_size test :
  batch_size <= 0 \/ len (selected_instances st) < batch_size ->
  exhaust (create_batches batch_size test) st
  = ([], if decide (batch_size = 0) then Some ZeroDivisionError else None, st) /\
  (next (create_batches batch_size test) st).1.1
  = (if decide (batch_size = 0) then Raised ZeroDivisionError else StopIteration).
Proof. apply exhaust_degenerate. Qed.

Lemma question_id_bound slf inst id :
  question_id slf inst = Ok id ->
  0 <= id < FrozenIdentifier_len (question_lexicon slf).
Proof.
  unfold question_id. unfold_result. destruct (question_text inst); [|done].
  apply getitem_bound.
Qed.

Lemma yielded_id_bounds st batch_size test (k : nat) batch :
  yielded (create_batches batch_size test) st !! k = Some batch ->
  Forall (fun id => 0 <= id < FrozenIdentifier_len (question_lexicon (self st)))
         (feed_question_ids batch) /\
  Forall (fun pn : Z * Z =>
            0 <= pn.1 < FrozenIdentifier_len (candidate_lexicon (self st)) /\
            0 <= pn.2 < FrozenIdentifier_len (candidate_lexicon (self st)))
         (feed_candidate_ids batch).
Proof.
  intros (batches & e & st' & Hrun & Hk)%yielded_lookup. split.
  - apply Forall_lookup. intros j id Hid.
    destruct (yielded_elements _ _ _ _ _ _ k j _ Hrun Hk) as (Hqs & _ & _).
    destruct (Hqs _ Hid) as (inst & _ & Hqid). by eapply question_id_bound.
  - apply Forall_lookup. intros j pn Hpn.
    destruct (yielded_elements _ _ _ _ _ _ k j _ Hrun Hk) as (_ & Hcs & _).
    destruct (Hcs _ Hpn) as (inst & _ & Hpos & Hneg).
    split; [by eapply answer_id_bound|done].
Qed.

Lemma yielded_batch_shape st batch_size test (k : nat) batch :
  yielded (create_batches batch_size test) st !! k = Some batch ->
  0 < batch_size /\
  length (feed_question_ids batch) = Z.to_nat batch_size /\
  length (feed_candidate_ids batch) = Z.to_nat batch_size /\
  feed_target_values batch = replicate (Z.to_nat batch_size) (1.0%float, 0.0%float).
Proof.
  intros (batches & e & st' & Hrun & Hk)%yielded_lookup.
  destruct (yielded_batch _ _ _ _ _ _ _ _ Hrun Hk) as (HB & Hwin & Hbatch).
  apply window_bound_weaken in Hwin; [|done].
  destruct (window_full _ _ _ HB Hwin) as [_ Hlen].
  destruct (batch_of_shape _ _ _ _ Hbatch Hlen) as (Hq & Hc & _).
  by destruct Hbatch as (_ & _ & Htv).
Qed.

(** X9.  Every id in a yielded batch is a row index of the embedding table
    the reader is assembled with: the question ids lie in
    [[0, num_questions)] and both candidate ids of every pair lie in
    [[0, num_candidates)], for a batcher whose two counts are the lexicon
    sizes (as [__init__] sets them). *)
Theorem yielded_ids_in_range st batch_size test (k : nat) batch :
  num_questions (self st) = FrozenIdentifier_len (question_lexicon (self st)) ->
  num_candidates (self st) = FrozenIdentifier_len (candidate_lexicon (self st)) ->
  yielded (create_batches batch_size test) st !! k = Some batch ->
  Forall (fun id => 0 <= id < num_questions (self st)) (feed_question_ids batch) /\
  Forall (fun pn : Z * Z => 0 <= pn.1 < num_candidates (self st) /\
                            0 <= pn.2 < num_candidates (self st))
         (feed_candidate_ids batch).
Proof. intros -> ->. apply yielded_id_bounds. Qed.

(** X17.  With a single candidate in the lexicon the sampled negative
    always coincides with the positive: every candidate pair of every yielded
    batch is [(0, 0)]. *)
Theorem single_candidate_collision st batch_size test (k : nat) batch :
  FrozenIdentifier_len (candidate_lexicon (self st)) = 1 ->
  yielded (create_batches batch_size test) st !! k = Some batch ->
  Forall (fun pn : Z * Z => pn = (0, 0)) (feed_candidate_ids batch).
Proof.
  intros Hone Hk. destruct (yielded_id_bounds _ _ _ _ _ Hk) as [_ Hcids].
  eapply Forall_impl; [exact Hcids|]. intros [pos neg] [Hpos Hneg].
  simpl in *. f_equal; lia.
Qed.

Lemma zip_fst_length {A B} (l : list A) (k1 k2 : list B) :
  length k1 = length k2 -> (zip l k1).*1 = (zip l k2).*1.
Proof.
  revert k1 k2. induction l as [|x l IH]; intros [|y1 k1] [|y2 k2] Hlen; try done.
  simpl in *. f_equal. apply IH. lia.
Qed.

Lemma same_but_random_sym st st' : same_but_random st st' -> same_but_random st' st.
Proof.
  unfold same_but_random. intros ->. exact (eq_sym (set_random_self st)).
Qed.

(** The loop body in two stores that differ in the random state only. *)
Lemma batch_body_random batch_size instances b st1 st2 :
  same_but_random st1 st2 ->
  match batch_body batch_size instances b st1,
        batch_body batch_size instances b st2 with
  | (Ok batch1, st1'), (Ok batch2, st2') =>
      same_but_negatives batch1 batch2 /\ same_but_random st1' st2'
  | (Raise e1, _), (Raise e2, _) => e1 = e2
  | _, _ => False
  end.
Proof.
  intros Hst. rewrite !batch_body_eq.
  replace (self st2) with (self (set_random (random (self st2)) st1))
    by by rewrite <- Hst.
  change (question_id (self (set_random _ st1))) with (question_id (self st1)).
  change (answer_id (self (set_random _ st1))) with (answer_id (self st1)).
  destruct (mapM (question_id _) _) as [qs|e]; [|done].
  destruct (mapM (answer_id _) _) as [ans|e]; [|done].
  destruct (mapM (M := M) _ (range 0 batch_size) st1) as [[neg1|e1] st1'] eqn:H1,
           (mapM (M := M) _ (range 0 batch_size) st2) as [[neg2|e2] st2'] eqn:H2.
  - pose proof (sample_frame _ _ _ _ H1) as Hf1.
    pose proof (sample_frame _ _ _ _ H2) as Hf2.
    apply sample_Ok in H1 as [Hl1 _]. apply sample_Ok in H2 as [Hl2 _].
    split.
    + split; [done|]. split; [|done]. simpl. apply zip_fst_length. congruence.
    + apply (same_but_random_trans _ st1); [exact (same_but_random_sym _ _ Hf1)|].
      apply (same_but_random_trans _ st2); [exact Hst|exact Hf2].
  - destruct (same_but_random_self _ _ Hst) as [_ Hlex].
    destruct (range 0 batch_size) as [|x l]; [done|].
    apply sample_Raise in H2 as (_ & _ & Hle). rewrite Hlex in Hle.
    by rewrite sample_empty_lexicon in H1.
  - destruct (same_but_random_self _ _ Hst) as [_ Hlex].
    destruct (range 0 batch_size) as [|x l]; [done|].
    apply sample_Raise in H1 as (_ & _ & Hle). rewrite <- Hlex in Hle.
    by rewrite sample_empty_lexicon in H2.
  - apply sample_Raise in H1 as (_ & -> & _).
    by apply sample_Raise in H2 as (_ & -> & _).
Qed.

Lemma run_loop_random batch_size instances rest st1 st2 :
  same_but_random st1 st2 ->
  Forall2 same_but_negatives
    (run_loop batch_size instances rest st1).1.1
    (run_loop batch_size instances rest st2).1.1 /\
  (run_loop batch_size instances rest st1).1.2
  = (run_loop batch_size instances rest st2).1.2.
Proof.
  revert st1 st2. induction rest as [|b rest IH]; intros st1 st2 Hst; simpl.
  { split; [constructor|done]. }
  pose proof (batch_body_random batch_size instances b st1 st2 Hst) as Hbody.
  destruct (batch_body _ _ b st1) as [[batch1|e1] st1'],
           (batch_body _ _ b st2) as [[batch2|e2] st2']; try done.
  - destruct Hbody as [Hbatch Hst']. specialize (IH st1' st2' Hst').
    destruct (run_loop _ _ rest st1') as [[bs1 o1] s1],
             (run_loop _ _ rest st2') as [[bs2 o2] s2].
    simpl in *. destruct IH as [IH1 IH2]. split; [by constructor|done].
  - simpl. split; [constructor|by subst].
Qed.

Lemma exhaust_random g st s :
  Forall2 same_but_negatives (yielded g st) (yielded g (set_random s st)) /\
  (exhaust g st).1.2 = (exhaust g (set_random s st)).1.2.
Proof.
  pose proof (same_but_random_set s st) as Hst.
  unfold yielded, exhaust. destruct (gi_frame g) as [|instances rest|].
  - rewrite !loop_header_eq.
    change (selected_instances (set_random s st)) with (selected_instances st).
    destruct (gi_batch_size g =? 0); [by split; [constructor|]|].
    by apply run_loop_random.
  - by apply run_loop_random.
  - split; [constructor|done].
Qed.

(** X10.  The state of the random source has no influence on anything but
    the sampled negative ids: started in two stores that differ in
    [self.random] only, a generator gives runs with the same outcome, the
    same number of batches, and batches with the same question ids, the same
    positive candidate ids and the same target values. *)
Theorem random_state_only_negatives g st s :
  Forall2 same_but_negatives (yielded g st) (yielded g (set_random s st)) /\
  (exhaust g st).1.2 = (exhaust g (set_random s st)).1.2.
Proof. apply exhaust_random. Qed.

Lemma draws_app n (a b : nat) s :
  draws n (a + b) s =
  ((draws n a s).1 ++ (draws n b (draws n a s).2).1, (draws n b (draws n a s).2).2).
Proof.
  revert s. induction a as [|a IH]; intros s; simpl.
  { by destruct (draws n b s). }
  destruct (randbelow n s) as [x s1]. rewrite IH.
  by destruct (draws n a s1) as [xs s2].
Qed.

Lemma draws_length n k s : length (draws n k s).1 = k.
Proof.
  revert s. induction k as [|k IH]; intros s; simpl; [done|].
  destruct (randbelow n s) as [x s1]. specialize (IH s1).
  destruct (draws n k s1). simpl in *. lia.
Qed.

(** The sampling comprehension draws once per element. *)
Lemma sample_draws {A} (l : list A) st :
  0 < FrozenIdentifier_len (candidate_lexicon (self st)) ->
  mapM (M := M) (fun _ => sample_negative) l st =
  (Ok (draws (FrozenIdentifier_len (candidate_lexicon (self st))) (length l)
         (random (self st))).1,
   set_random (draws (FrozenIdentifier_len (candidate_lexicon (self st))) (length l)
                 (random (self st))).2 st).
Proof.
  intros Hn. revert st Hn. induction l as [|x l IH]; intros st Hn; simpl.
  { by rewrite set_random_self. }
  unfold_M. rewrite sample_negative_eq. cbn zeta.
  destruct (Z.ltb_spec 0 (FrozenIdentifier_len (candidate_lexicon (self st))));
    [|lia].
  rewrite IH by done. simpl.
  destruct (randbelow _ (random (self st))) as [y s1]. simpl.
  by destruct (draws _ (length l) s1) as [ys s2].
Qed.

Lemma run_loop_draws batch_size instances rest st :
  0 < batch_size ->
  Forall (fun b => length (window batch_size instances b) = Z.to_nat batch_size) rest ->
  let n := FrozenIdentifier_len (candidate_lexicon (self st)) in
  let r := run_loop batch_size instances rest st in
  let k := (length r.1.1 * Z.to_nat batch_size)%nat in
  (concat (feed_candidate_ids <$> r.1.1)).*2 = (draws n k (random (self st))).1 /\
  random (self r.2) = (draws n k (random (self st))).2.
Proof.
  intros HB Hfull. revert st.
  induction Hfull as [|b rest Hb _ IH]; intros st; cbn zeta; [done|].
  simpl. destruct (batch_body _ _ b st) as [[batch|e] st1] eqn:Hbody.
  - specialize (IH st1). cbn zeta in IH.
    pose proof (batch_body_frame _ _ _ _ _ _ Hbody) as Hframe.
    destruct (same_but_random_self _ _ Hframe) as [_ Hlex]. rewrite Hlex in IH.
    rewrite batch_body_eq in Hbody.
    destruct (mapM (question_id _) _) as [qs|] eqn:Hq; [|done].
    destruct (mapM (answer_id _) _) as [ans|] eqn:Ha; [|done].
    apply mapM_Ok_length in Ha.
    destruct (Z.lt_ge_cases 0 (FrozenIdentifier_len (candidate_lexicon (self st))))
      as [Hpos|Hle].
    + rewrite sample_draws in Hbody by done. injection Hbody as <- <-.
      rewrite range_length, Z.sub_0_r in *.
      destruct (run_loop _ _ rest _) as [[bs o] st2]. simpl in *.
      destruct IH as [IH1 IH2]. rewrite draws_app. simpl.
      split; [|done]. rewrite fmap_app. f_equal; [|exact IH1].
      apply snd_zip. rewrite Ha, Hb, draws_length. done.
    + destruct (range 0 batch_size) as [|x l] eqn:Hr.
      { apply (f_equal length) in Hr. rewrite range_length in Hr. simpl in Hr. lia. }
      by rewrite sample_empty_lexicon in Hbody.
  - apply batch_body_Raise in Hbody as ->. done.
Qed.

(** X11.  The sampled negative ids of a run are, in order, the successive
    draws below [len(candidate_lexicon)] from the random source as the run
    found it, one draw per emitted instance; the run leaves the source in the
    state after exactly [batch_size] draws per yielded batch, also when the
    run ended with an exception. *)
Theorem negatives_are_the_draws st batch_size test :
  let n := FrozenIdentifier_len (candidate_lexicon (self st)) in
  let g := create_batches batch_size test in
  let k := (length (yielded g st) * Z.to_nat batch_size)%nat in
  (concat (feed_candidate_ids <$> yielded g st)).*2
  = (draws n k (random (self st))).1 /\
  random (self (exhaust g st).2) = (draws n k (random (self st))).2.
Proof.
  cbn zeta. destruct (Z.lt_ge_cases 0 batch_size) as [HB|HB].
  - unfold yielded. rewrite exhaust_create_batches by lia.
    apply run_loop_draws; [done|].
    apply Forall_forall. intros b Hb. unfold range in Hb. apply elem_of_seqZ in Hb.
    assert (0 <= len (selected_instances st)) as HL by (unfold len; lia).
    replace b with (Z.of_nat (Z.to_nat b)) by lia.
    apply window_full; [done|].
    eapply window_bound_weaken; [done|]. apply last_window_bound; lia.
  - unfold yielded.
    destruct (exhaust_degenerate st batch_size test) as [-> _]; [by left|done].
Qed.
End Sampling.

(** ** Reproducible sampling *)

Section Reproducibility.
Context {RS : RandomSource}.

(** The negatives of a whole run and the state the run leaves the source
    in, as draws from the state the run found. *)
Lemma exhaust_draws st batch_size test :
  let n := FrozenIdentifier_len (candidate_lexicon (self st)) in
  let g := create_batches batch_size test in
  let k := (length (yielded g st) * Z.to_nat batch_size)%nat in
  (concat (feed_candidate_ids <$> yielded g st)).*2
  = (draws n k (random (self st))).1 /\
  random (self (exhaust g st).2) = (draws n k (random (self st))).2.
Proof.
  cbn zeta. unfold yielded.
  destruct (Z.lt_ge_cases 0 batch_size) as [HB|HB].
  - rewrite exhaust_create_batches by lia.
    apply run_loop_draws; [done|].
    apply Forall_forall. intros b Hb. unfold range in Hb. apply elem_of_seqZ in Hb.
    assert (0 <= len (selected_instances st)) as HL by (unfold len; lia).
    replace b with (Z.of_nat (Z.to_nat b)) by lia.
    apply window_full; [done|].
    eapply window_bound_weaken; [done|]. apply last_window_bound; lia.
  - destruct (exhaust_degenerate st batch_size test) as [-> _]; [by left|done].
Qed.

(** C5.  The negatives a freshly constructed batcher samples in a call of
    [create_batches] are, in order, the successive draws below
    [num_candidates] from the source seeded with the constant 0,
    [batch_size] draws per yielded batch, and the call leaves the source in
    the state after those draws: the sampled ids depend on the reference
    data, the data and the batch size only through [num_candidates] and the
    number of draws.  So two batchers constructed from equal reference data
    and asked for batches with equal [data] and [batch_size] give the same
    run: the same batches, the same sampled negative ids, the same outcome
    and the same final store. *)
Theorem reproducible reference_data1 reference_data2 b1 b2 data1 data2
    batch_size1 batch_size2 test1 test2 :
  AtomicBatcher_init reference_data1 = Ok b1 ->
  AtomicBatcher_init reference_data2 = Ok b2 ->
  let g1 := create_batches batch_size1 test1 in
  let g2 := create_batches batch_size2 test2 in
  let st1 := {| self := b1; data := data1 |} in
  let st2 := {| self := b2; data := data2 |} in
  let k1 := (length (yielded g1 st1) * Z.to_nat batch_size1)%nat in
  let k2 := (length (yielded g2 st2) * Z.to_nat batch_size2)%nat in
  ((concat (feed_candidate_ids <$> yielded g1 st1)).*2
   = (draws (num_candidates b1) k1 (Random 0)).1 /\
   random (self (exhaust g1 st1).2) = (draws (num_candidates b1) k1 (Random 0)).2) /\
  ((concat (feed_candidate_ids <$> yielded g2 st2)).*2
   = (draws (num_candidates b2) k2 (Random 0)).1 /\
   random (self (exhaust g2 st2).2) = (draws (num_candidates b2) k2 (Random 0)).2) /\
  (reference_data1 = reference_data2 -> data1 = data2 ->
   batch_size1 = batch_size2 ->
   exhaust g1 st1 = exhaust g2 st2 /\
   (concat (feed_candidate_ids <$> yielded g1 st1)).*2
   = (concat (feed_candidate_ids <$> yielded g2 st2)).*2) /\
  (num_candidates b1 = num_candidates b2 -> k1 = k2 ->
   (concat (feed_candidate_ids <$> yielded g1 st1)).*2
   = (concat (feed_candidate_ids <$> yielded g2 st2)).*2).
Proof.
  intros H1 H2. cbn zeta.
  destruct (init_num_candidates _ _ H1) as (Hn1 & _ & Hr1).
  destruct (init_num_candidates _ _ H2) as (Hn2 & _ & Hr2).
  pose proof (exhaust_draws {| self := b1; data := data1 |} batch_size1 test1)
    as Hd1.
  pose proof (exhaust_draws {| self := b2; data := data2 |} batch_size2 test2)
    as Hd2.
  cbn zeta in Hd1, Hd2. simpl self in Hd1, Hd2.
  rewrite <- Hn1, Hr1 in Hd1. rewrite <- Hn2, Hr2 in Hd2.
  split; [exact Hd1|]. split; [exact Hd2|]. split.
  - intros -> -> ->. rewrite H1 in H2. injection H2 as <-.
    assert (exhaust (create_batches batch_size2 test1) {| self := b1; data := data2 |}
            = exhaust (create_batches batch_size2 test2) {| self := b1; data := data2 |})
      as Hrun by by destruct test1, test2.
    split; [exact Hrun|]. unfold yielded. by rewrite Hrun.
  - intros Hn Hk. destruct Hd1 as [-> _], Hd2 as [-> _]. by rewrite Hn, Hk.
Qed.
End Reproducibility.

Lemma reproducible_witness :
  ((concat (feed_candidate_ids
            <$> yielded (create_batches 2 false) (paris_store None))).*2
   = (draws (RS := weyl) (num_candidates (paris_batcher (RS := weyl)))
        (length (yielded (create_batches 2 false) (paris_store None))
         * Z.to_nat 2) (Random 0)).1 /\
   random (self (exhaust (create_batches 2 false) (paris_store None)).2)
   = (draws (RS := weyl) (num_candidates (paris_batcher (RS := weyl)))
        (length (yielded (create_batches 2 false) (paris_store None))
         * Z.to_nat 2) (Random 0)).2) /\
  ((concat (feed_candidate_ids
            <$> yielded (create_batches 2 true) (paris_store None))).*2
   = (draws (RS := weyl) (num_candidates (paris_batcher (RS := weyl)))
        (length (yielded (create_batches 2 true) (paris_store None))
         * Z.to_nat 2) (Random 0)).1 /\
   random (self (exhaust (create_batches 2 true) (paris_store None)).2)
   = (draws (RS := weyl) (num_candidates (paris_batcher (RS := weyl)))
        (length (yielded (create_batches 2 true) (paris_store None))
         * Z.to_nat 2) (Random 0)).2) /\
  (paris_data = paris_data -> @None Dataset = None -> 2 = 2 ->
   exhaust (create_batches 2 false) (paris_store None)
   = exhaust (create_batches 2 true) (paris_store None) /\
   (concat (feed_candidate_ids
            <$> yielded (create_batches 2 false) (paris_store None))).*2
   = (concat (feed_candidate_ids
              <$> yielded (create_batches 2 true) (paris_store None))).*2) /\
  (num_candidates (paris_batcher (RS := weyl))
   = num_candidates (paris_batcher (RS := weyl)) ->
   (length (yielded (create_batches 2 false) (paris_store None)) * Z.to_nat 2
    = length (yielded (create_batches 2 true) (paris_store None)) * Z.to_nat 2)%nat ->
   (concat (feed_candidate_ids
            <$> yielded (create_batches 2 false) (paris_store None))).*2
   = (concat (feed_candidate_ids
              <$> yielded (create_batches 2 true) (paris_store None))).*2).
Proof.
  apply (reproducible (RS := weyl) paris_data paris_data paris_batcher paris_batcher
           None None 2 2 false true); reflexivity.
Defined.

(** * The assembled reader *)

Section Reader.
Context {RS : RandomSource}.
Context {R : Type} (zero : R) (add mul : R -> R -> R).
Context (cross_entropy : list R -> list float -> R).

Lemma gather_row_in_range (params : list (list R)) id :
  0 <= id < len params ->
  exists row, gather_row params id = Some row /\ params !! Z.to_nat id = Some row.
Proof.
  intros Hid. unfold gather_row. rewrite decide_True by lia.
  destruct (lookup_lt_is_Some_2 params (Z.to_nat id)) as [row Hrow];
    [unfold len in Hid; lia|].
  by exists row.
Qed.

Lemma gather_in_range (params : list (list R)) ids :
  Forall (fun id => 0 <= id < len params) ids ->
  exists rows,
    gather params ids = Some rows /\
    Forall2 (fun id row => params !! Z.to_nat id = Some row) ids rows.
Proof.
  induction 1 as [|id ids Hid _ (rows & Hrows & Hall)].
  { exists []. split; [done|constructor]. }
  destruct (gather_row_in_range params id Hid) as (row & Hrow & Hlookup).
  exists (row :: rows). split; [|by constructor].
  unfold gather in *. simpl. rewrite Hrow. simpl. by rewrite Hrows.
Qed.

(** An id outside the table leaves the encodings without a value. *)
Lemma gather_out_of_range (params : list (list R)) ids id :
  id ∈ ids -> ~ 0 <= id < len params -> gather params ids = None.
Proof.
  intros Hin Hid. unfold gather. apply mapM_None, Exists_exists.
  exists id. split; [done|]. unfold gather_row.
  destruct (decide (0 <= id)) as [Hpos|]; [|done].
  apply lookup_ge_None_2. unfold len in Hid. lia.
Qed.

Lemma reduce_sum_products (Q : list (list R)) (C : list (list (list R))) :
  reduce_sum_2 zero add
    (zip_with (fun q cs => (fun v => zip_with mul q v) <$> cs) Q C)
  = zip_with (fun q cs => inner_product zero add mul q <$> cs) Q C.
Proof.
  unfold reduce_sum_2. revert C.
  induction Q as [|q Q IH]; intros [|cs C]; simpl; [done..|].
  rewrite IH. f_equal. rewrite <- list_fmap_compose. done.
Qed.

(** The scorer on encodings of matching shapes, as a closed form. *)
Lemma scorer_value (Q : list (list R)) (C : list (list (list R))) :
  Forall2 (fun q cs => Forall (fun v => length v = length q) cs) Q C ->
  create_dot_product_scorer zero add mul Q C
  = Ok (zip_with (fun q cs => inner_product zero add mul q <$> cs) Q C).
Proof.
  intros HQC. unfold create_dot_product_scorer.
  rewrite (multiply3_expand _ _ _ HQC). simpl.
  by rewrite reduce_sum_products.
Qed.

Lemma has_shape_row shape (value : list (list R)) i row :
  has_shape shape value -> value !! i = Some row -> len row = shape.2.
Proof. intros [_ Hrows] Hrow. by eapply Forall_lookup_1 in Hrows. Qed.

(** What [create_model_f_reader] returns when it returns. *)
Lemma create_model_f_reader_Ok reference_data options reader graph :
  create_model_f_reader zero add mul cross_entropy reference_data options []
  = Ok (reader, graph) ->
  exists b repr_dim,
    AtomicBatcher_init reference_data = Ok b /\
    options !! "repr_dim"%string = Some repr_dim /\
    batcher reader = b /\
    graph = [(num_questions b, repr_dim); (num_candidates b, repr_dim)] /\
    (forall Q C feed,
       scores reader [Q; C] feed =
       q ← gather Q (feed_question_ids feed);
       c ← mapM (gather C)
             ((fun pn : Z * Z => [pn.1; pn.2]) <$> feed_candidate_ids feed);
       result_value (create_dot_product_scorer zero add mul q c)) /\
    (forall values feed,
       loss reader values feed =
       s ← scores reader values feed;
       t ← target_values_node values feed;
       if decide (Forall2 (fun row labels => length row = length labels) s t)
       then Some (zip_with cross_entropy s t)
       else None).
Proof.
  unfold create_model_f_reader, options_getitem. unfold_result.
  destruct (AtomicBatcher_init reference_data) as [b|]; [|done].
  destruct (options !! "repr_dim"%string) as [repr_dim|]; [|done].
  simpl. intros [= <- <-]. by exists b, repr_dim.
Qed.

Lemma gather_pairs (params : list (list R)) (pairs : list (Z * Z)) :
  Forall (fun pn : Z * Z => 0 <= pn.1 < len params /\ 0 <= pn.2 < len params) pairs ->
  exists planes,
    mapM (gather params) ((fun pn : Z * Z => [pn.1; pn.2]) <$> pairs) = Some planes /\
    Forall2 (fun (pn : Z * Z) plane =>
               exists cp cn,
                 params !! Z.to_nat pn.1 = Some cp /\
                 params !! Z.to_nat pn.2 = Some cn /\
                 plane = [cp; cn])
            pairs planes.
Proof.
  induction 1 as [|[pos neg] pairs [Hpos Hneg] _ (planes & Hplanes & Hall)].
  { exists []. split; [done|constructor]. }
  simpl in Hpos, Hneg.
  destruct (gather_row_in_range params pos Hpos) as (cp & Hcp & Hcp').
  destruct (gather_row_in_range params neg Hneg) as (cn & Hcn & Hcn').
  exists ([cp; cn] :: planes). split.
  - apply mapM_Some. rewrite fmap_cons. constructor; [|by apply mapM_Some].
    unfold gather. simpl. by rewrite Hcp, Hcn.
  - constructor; [|done]. by exists cp, cn.
Qed.

(** The value of the reader's nodes on a batch its batcher yields. *)
Lemma reader_evaluation reference_data options reader graph values s data
    batch_size test (k : nat) batch :
  create_model_f_reader zero add mul cross_entropy reference_data options []
  = Ok (reader, graph) ->
  Forall2 has_shape graph values ->
  yielded (create_batches batch_size test)
    (set_random s {| self := batcher reader; data := data |}) !! k = Some batch ->
  exists Q C S,
    values = [Q; C] /\
    scores reader values batch = Some S /\
    length S = Z.to_nat batch_size /\
    Forall (fun row => length row = 2%nat) S /\
    forall (j : nat) qid pos neg,
      feed_question_ids batch !! j = Some qid ->
      feed_candidate_ids batch !! j = Some (pos, neg) ->
      exists q cp cn,
        Q !! Z.to_nat qid = Some q /\
        C !! Z.to_nat pos = Some cp /\
        C !! Z.to_nat neg = Some cn /\
        S !! j = Some [inner_product zero add mul q cp;
                       inner_product zero add mul q cn].
Proof.
  intros (b & d & Hinit & _ & Hb & -> & Hscores & _)%create_model_f_reader_Ok
    Hshapes Hk.
  destruct (init_num_candidates _ _ Hinit) as (Hnc & Hnq & _).
  apply Forall2_cons_inv_l in Hshapes as (Q & vs & HQ & Hshapes & ->).
  apply Forall2_cons_inv_l in Hshapes as (C & vs' & HC & Hnil & ->).
  apply Forall2_nil_inv_l in Hnil as ->.
  destruct (yielded_batch_shape _ _ _ _ _ Hk) as (HB & Hlq & Hlc & _).
  destruct (yielded_id_bounds _ _ _ _ _ Hk) as [Hqids Hcids].
  simpl in Hqids, Hcids. rewrite Hb in Hqids, Hcids.
  rewrite <- Hnq in Hqids. rewrite <- Hnc in Hcids.
  pose proof HQ as [HQlen _]. pose proof HC as [HClen _]. simpl in HQlen, HClen.
  rewrite <- HQlen in Hqids. rewrite <- HClen in Hcids.
  destruct (gather_in_range Q _ Hqids) as (qrows & Hqrows & Hqall).
  destruct (gather_pairs C _ Hcids) as (planes & Hplanes & Hcall).
  assert (Forall2 (fun q cs => Forall (fun v => length v = length q) cs) qrows planes)
    as Hmatch.
  { apply Forall2_same_length_lookup_2.
    { apply Forall2_length in Hqall, Hcall. lia. }
    intros j q plane Hq Hplane.
    destruct (Forall2_lookup_r _ _ _ _ _ Hqall Hq) as (qid & _ & HQq).
    destruct (Forall2_lookup_r _ _ _ _ _ Hcall Hplane)
      as (pn & _ & cp & cn & Hcp & Hcn & ->).
    pose proof (has_shape_row _ _ _ _ HQ HQq) as Hlq'.
    pose proof (has_shape_row _ _ _ _ HC Hcp) as Hlcp.
    pose proof (has_shape_row _ _ _ _ HC Hcn) as Hlcn.
    unfold len in *. simpl in *. repeat constructor; lia. }
  exists Q, C. eexists. split; [done|]. split.
  { rewrite Hscores, Hqrows. simpl. rewrite Hplanes. simpl.
    by rewrite (scorer_value _ _ Hmatch). }
  apply Forall2_length in Hqall as Hlqrows. apply Forall2_length in Hcall as Hlplanes.
  split; [rewrite length_zip_with; lia|]. split.
  - apply Forall_lookup. intros j row. rewrite lookup_zip_with.
    destruct (qrows !! j) as [q|]; [|done]. simpl.
    destruct (planes !! j) as [plane|] eqn:Hplane; [|done]. simpl. intros [= <-].
    destruct (Forall2_lookup_r _ _ _ _ _ Hcall Hplane)
      as (pn & _ & cp & cn & _ & _ & ->).
    done.
  - intros j qid pos neg Hqid Hpn.
    destruct (Forall2_lookup_l _ _ _ _ _ Hqall Hqid) as (q & Hq & HQq).
    destruct (Forall2_lookup_l _ _ _ _ _ Hcall Hpn)
      as (plane & Hplane & cp & cn & Hcp & Hcn & ->).
    exists q, cp, cn. repeat split; try done.
    by rewrite lookup_zip_with, Hq, Hplane.
Qed.

(** X12.  A reader assembled by [create_model_f_reader] can score every
    batch its batcher yields, whatever values of the declared shapes its two
    embedding tables hold: no id falls outside a table and no shapes clash.
    The scores have one row per instance and two columns, and row [j] holds
    the inner products of the question's embedding with the embedding of the
    positive and of the sampled negative candidate. *)
Theorem reader_scores reference_data options reader graph values s data
    batch_size test (k : nat) batch :
  create_model_f_reader zero add mul cross_entropy reference_data options []
  = Ok (reader, graph) ->
  Forall2 has_shape graph values ->
  yielded (create_batches batch_size test)
    (set_random s {| self := batcher reader; data := data |}) !! k = Some batch ->
  exists Q C S,
    values = [Q; C] /\
    scores reader values batch = Some S /\
    len S = batch_size /\
    Forall (fun row => length row = 2%nat) S /\
    forall (j : nat) qid pos neg,
      feed_question_ids batch !! j = Some qid ->
      feed_candidate_ids batch !! j = Some (pos, neg) ->
      exists q cp cn,
        Q !! Z.to_nat qid = Some q /\
        C !! Z.to_nat pos = Some cp /\
        C !! Z.to_nat neg = Some cn /\
        S !! j = Some [inner_product zero add mul q cp;
                       inner_product zero add mul q cn].
Proof.
  intros Hreader Hshapes Hk.
  destruct (reader_evaluation _ _ _ _ _ _ _ _ _ _ _ Hreader Hshapes Hk)
    as (Q & C & S & Hvalues & Hscores & Hlen & Hrows & Hentries).
  destruct (yielded_batch_shape _ _ _ _ _ Hk) as (HB & _).
  exists Q, C, S. repeat split; try done. unfold len. lia.
Qed.

(** X13.  On every batch its batcher yields the reader's loss has a value,
    one loss per instance of the batch: the scores and the target values
    fed with them have the same shape. *)
Theorem reader_loss reference_data options reader graph values s data
    batch_size test (k : nat) batch :
  create_model_f_reader zero add mul cross_entropy reference_data options []
  = Ok (reader, graph) ->
  Forall2 has_shape graph values ->
  yielded (create_batches batch_size test)
    (set_random s {| self := batcher reader; data := data |}) !! k = Some batch ->
  exists losses S,
    scores reader values batch = Some S /\
    loss reader values batch = Some losses /\
    len losses = batch_size /\
    forall (j : nat) row,
      S !! j = Some row ->
      losses !! j = Some (cross_entropy row [1.0%float; 0.0%float]).
Proof.
  intros Hreader Hshapes Hk.
  destruct (reader_evaluation _ _ _ _ _ _ _ _ _ _ _ Hreader Hshapes Hk)
    as (Q & C & S & Hvalues & Hscores & Hlen & Hrows & _).
  destruct (yielded_batch_shape _ _ _ _ _ Hk) as (HB & _ & _ & Htv).
  apply create_model_f_reader_Ok in Hreader as (_ & _ & _ & _ & _ & _ & _ & Hloss).
  eexists. exists S. split; [done|].
  rewrite Hloss, Hscores. unfold target_values_node. simpl. rewrite Htv.
  rewrite decide_True.
  - split; [done|]. split.
    + unfold len. rewrite length_zip_with, length_fmap, length_replicate. lia.
    + intros j row Hrow. rewrite lookup_zip_with, Hrow. simpl.
      rewrite list_lookup_fmap, lookup_replicate_2; [done|].
      apply lookup_lt_Some in Hrow. lia.
  - apply Forall2_same_length_lookup_2.
    { rewrite length_fmap, length_replicate. done. }
    intros j row labels Hrow. rewrite list_lookup_fmap.
    intros Hlabels. eapply Forall_lookup_1 in Hrows; [|exact Hrow].
    destruct (replicate _ _ !! j); [|done]. simpl in Hlabels.
    injection Hlabels as <-. by rewrite Hrows.
Qed.
(** X16.  [create_model_f_reader] builds the batcher first and reads
    [options['repr_dim']] afterwards: reference data with an instance that
    has no question makes it raise [IndexError], whatever the options hold;
    otherwise a missing [repr_dim] option makes it raise [KeyError]; otherwise
    it returns a reader around the constructed batcher and has added exactly
    two variables to the graph, of shapes [(num_questions, repr_dim)] and
    [(num_candidates, repr_dim)]. *)
Theorem create_model_f_reader_result reference_data options graph :
  match create_model_f_reader zero add mul cross_entropy reference_data options graph with
  | Ok (reader, graph') =>
      exists repr_dim,
        options !! "repr_dim"%string = Some repr_dim /\
        AtomicBatcher_init reference_data = Ok (batcher reader) /\
        graph' = graph ++ [(num_questions (batcher reader), repr_dim);
                           (num_candidates (batcher reader), repr_dim)]
  | Raise e =>
      (e = IndexError /\
       Exists (fun inst => questions inst = []) (instances reference_data)) \/
      (e = KeyError "repr_dim" /\
       options !! "repr_dim"%string = None /\
       Forall (fun inst => questions inst <> []) (instances reference_data))
  end.
Proof.
  unfold create_model_f_reader, options_getitem. unfold_result.
  destruct (AtomicBatcher_init reference_data) as [b|e] eqn:Hinit.
  - destruct (options !! "repr_dim"%string) as [repr_dim|] eqn:Hdim; simpl.
    + exists repr_dim. split; [done|]. split; [done|]. by rewrite <- app_assoc.
    + right. split; [done|]. split; [done|]. by eapply init_Ok_questions.
  - left. by apply init_Raise.
Qed.
End Reader.

(** * The training driver *)

Section TrainingProperties.
Context {RS : RandomSource} {R : Type}.








End TrainingProperties.

(** * Instances of the statements on the example data *)

Lemma next_without_yield_witness :
  paris_store (Some unseen_data) = paris_store (Some unseen_data) /\
  forall (st2 : Store (RS := weyl)) n,
    next (with_frame (create_batches 1 false) Closed) st2
    = (StopIteration, with_frame (create_batches 1 false) Closed, st2) /\
    pull (S n) (with_frame (create_batches 1 false) Closed) st2
    = ([StopIteration], with_frame (create_batches 1 false) Closed, st2).
Proof.
  apply (next_without_yield (RS := weyl) (create_batches 1 false)
           (paris_store (Some unseen_data))
           (Raised (KeyError "Where is the Brandenburg Gate?"))).
  - vm_compute. reflexivity.
  - simpl. intros [].
Defined.

Lemma degenerate_batch_size_witness :
  exhaust (create_batches 5 false) (paris_store None)
  = ([], if decide (5 = 0) then Some ZeroDivisionError else None, paris_store None) /\
  (next (create_batches 5 false) (paris_store None)).1.1
  = (if decide (5 = 0) then Raised ZeroDivisionError else StopIteration).
Proof.
  apply (degenerate_batch_size (paris_store None) 5 false).
  right. vm_compute. reflexivity.
Defined.

Lemma yielded_ids_in_range_witness :
  Forall (fun id => 0 <= id < num_questions (self (paris_store None)))
         (feed_question_ids paris_batch) /\
  Forall (fun pn : Z * Z => 0 <= pn.1 < num_candidates (self (paris_store None)) /\
                            0 <= pn.2 < num_candidates (self (paris_store None)))
         (feed_candidate_ids paris_batch).
Proof.
  apply (yielded_ids_in_range (paris_store None) 2 false 0 paris_batch).
  - vm_compute. reflexivity.
  - vm_compute. reflexivity.
  - vm_compute. reflexivity.
Defined.

Lemma paris_reader_created :
  create_model_f_reader 0 Z.add Z.mul margin paris_data paris_options []
  = Ok (paris_reader, [(3, 2); (2, 2)]).
Proof. reflexivity. Qed.

Lemma paris_values_shaped : Forall2 has_shape [(3, 2); (2, 2)] paris_values.
Proof. repeat (constructor || split). Qed.

Lemma paris_batch_yielded :
  yielded (create_batches 2 false)
    (set_random (Random 0) {| self := batcher paris_reader; data := None |}) !! 0%nat
  = Some paris_batch.
Proof. vm_compute. reflexivity. Qed.

Lemma reader_scores_witness :
  exists Q C S,
    paris_values = [Q; C] /\
    scores paris_reader paris_values paris_batch = Some S /\
    len S = 2 /\
    Forall (fun row => length row = 2%nat) S /\
    forall (j : nat) qid pos neg,
      feed_question_ids paris_batch !! j = Some qid ->
      feed_candidate_ids paris_batch !! j = Some (pos, neg) ->
      exists q cp cn,
        Q !! Z.to_nat qid = Some q /\
        C !! Z.to_nat pos = Some cp /\
        C !! Z.to_nat neg = Some cn /\
        S !! j = Some [inner_product 0 Z.add Z.mul q cp;
                       inner_product 0 Z.add Z.mul q cn].
Proof.
  apply (reader_scores (RS := weyl) 0 Z.add Z.mul margin paris_data paris_options
           paris_reader [(3, 2); (2, 2)] paris_values (Random 0) None 2 false 0 paris_batch).
  - reflexivity.
  - repeat (constructor || split).
  - vm_compute. reflexivity.
Defined.

Lemma reader_loss_witness :
  exists losses S,
    scores paris_reader paris_values paris_batch = Some S /\
    loss paris_reader paris_values paris_batch = Some losses /\
    len losses = 2 /\
    forall (j : nat) row,
      S !! j = Some row ->
      losses !! j = Some (margin row [1.0%float; 0.0%float]).
Proof.
  apply (reader_loss (RS := weyl) 0 Z.add Z.mul margin paris_data paris_options
           paris_reader [(3, 2); (2, 2)] paris_values (Random 0) None 2 false 0 paris_batch).
  - reflexivity.
  - repeat (constructor || split).
  - vm_compute. reflexivity.
Defined.

Example paris_scores_values :
  scores paris_reader paris_values paris_batch = Some [[9; 9]; [5; 3]] /\
  loss paris_reader paris_values paris_batch = Some [0; -2].
Proof. split; vm_compute; reflexivity. Qed.


Lemma single_candidate_collision_witness :
  Forall (fun pn : Z * Z => pn = (0, 0)) [(0, 0); (0, 0)].
Proof.
  apply (single_candidate_collision single_candidate_store 2 false 0
           {| feed_question_ids := [0; 1];
              feed_candidate_ids := [(0, 0); (0, 0)];
              feed_target_values :=
                [(1.0%float, 0.0%float); (1.0%float, 0.0%float)] |}).
  - vm_compute. reflexivity.
  - vm_compute. reflexivity.
Defined.
